(** * Visual Pumping Lemma: the decomposition search engine and its
      membership oracle, embedded from [src/utils.py] and
      [src/pumping_engine.py].

    Python [str] values are lists of characters, Python [int] values are
    [Z], and a Python list is a Rocq list.  The definitions of the first
    part follow the source function by function and keep its names; the
    vocabulary used to state properties comes after them, and the lemmas
    last. *)

From Stdlib Require Import String Ascii DecimalString Bool ZArith Lia List
  Sorted.
Import ListNotations.
Local Open Scope Z_scope.

Set Implicit Arguments.

(* ================================================================= *)
(** ** Python strings, slices and ranges *)

Module Py.

Definition str := list ascii.

(** A string literal of the source. *)
Definition lit (x : string) : str := list_ascii_of_string x.

(** The empty string. *)
Definition empty_str : str := [].

(** [len(l)] *)
Definition len {A} (l : list A) : Z := Z.of_nat (length l).

(** [a == b] on strings *)
Fixpoint str_eqb (a b : str) : bool :=
  match a, b with
  | [], [] => true
  | c :: a', d :: b' => Ascii.eqb c d && str_eqb a' b'
  | _, _ => false
  end.

(** [range(lo, hi)] *)
Definition range (lo hi : Z) : list Z :=
  map (fun k => lo + Z.of_nat k) (seq 0 (Z.to_nat (hi - lo))).

(** How a slice bound is normalised against a sequence of length [n]:
    a negative bound counts from the end, and every bound is clamped
    to [0 .. n]. *)
Definition clamp_index (n i : Z) : Z :=
  if i <? 0 then Z.max 0 (i + n) else Z.min i n.

(** [l[i:j]] *)
Definition slice {A} (l : list A) (i j : Z) : list A :=
  let a := clamp_index (len l) i in
  let b := clamp_index (len l) j in
  firstn (Z.to_nat (b - a)) (skipn (Z.to_nat a) l).

(** [l[:j]] *)
Definition slice_to {A} (l : list A) (j : Z) : list A := slice l 0 j.

(** [l[i:]] *)
Definition slice_from {A} (l : list A) (i : Z) : list A := slice l i (len l).

(** [l[::-1]] *)
Definition reversed {A} (l : list A) : list A := rev l.

(** [y * i]: [i] copies of [y], none when [i <= 0]. *)
Definition str_mul (y : str) (i : Z) : str := concat (repeat y (Z.to_nat i)).

(** [s.startswith(prefix)] *)
Definition startswith (s prefix : str) : bool :=
  str_eqb (firstn (length prefix) s) prefix.

(** [s.endswith(suffix)] *)
Definition endswith (s suffix : str) : bool :=
  (length suffix <=? length s)%nat
  && str_eqb (skipn (length s - length suffix) s) suffix.

(** [sub in s] *)
Fixpoint contains (sub s : str) : bool :=
  startswith s sub ||
  match s with
  | [] => false
  | _ :: s' => contains sub s'
  end.

(** [s.count(c)] for a one-character [c] *)
Definition count (c : ascii) (s : str) : Z :=
  len (filter (Ascii.eqb c) s).

(** The decimal digits of [z]: what [str(z)] and an f-string field give
    when the conversion succeeds.  CPython refuses to convert an integer
    with more digits than its limit; [format_int] below has that case. *)
Definition str_of_int (z : Z) : str :=
  list_ascii_of_string (NilZero.string_of_int (Z.to_int z)).

(** A call either returns a value or raises. *)
Inductive exception : Type := ValueError.

Inductive outcome (A : Type) : Type :=
| Returns (a : A)
| Raises (e : exception).

Arguments Returns {A} a.
Arguments Raises {A} e.

(** CPython's default bound on the number of decimal digits of an integer
    it converts to a string ([sys.int_info.default_max_str_digits]). *)
Definition int_max_str_digits : Z := 4300.

(** An f-string field [{z}] for an integer [z]: its digits, or ValueError
    when [z] has more than [int_max_str_digits] digits. *)
Definition format_int (z : Z) : outcome str :=
  if 10 ^ int_max_str_digits <=? Z.abs z
  then Raises ValueError
  else Returns (str_of_int z).

End Py.

Import Py.

(* ================================================================= *)
(** ** The fragment of [re] the oracle uses *)

Module Re.

Inductive regex : Type :=
| Void : regex
| Eps : regex
| Chr : ascii -> regex
| Cat : regex -> regex -> regex
| Alt : regex -> regex -> regex
| Star : regex -> regex.

(** [r+] and [r?] *)
Definition Plus (r : regex) : regex := Cat r (Star r).
Definition Opt (r : regex) : regex := Alt Eps r.

(** The words of a regular expression. *)
Inductive Matches : regex -> str -> Prop :=
| MEps : Matches Eps []
| MChr c : Matches (Chr c) [c]
| MCat r1 r2 s1 s2 :
    Matches r1 s1 -> Matches r2 s2 -> Matches (Cat r1 r2) (s1 ++ s2)
| MAltL r1 r2 s : Matches r1 s -> Matches (Alt r1 r2) s
| MAltR r1 r2 s : Matches r2 s -> Matches (Alt r1 r2) s
| MStarNil r : Matches (Star r) []
| MStarCons r s1 s2 :
    Matches r s1 -> Matches (Star r) s2 -> Matches (Star r) (s1 ++ s2).

Fixpoint nullable (r : regex) : bool :=
  match r with
  | Void => false
  | Eps => true
  | Chr _ => false
  | Cat r1 r2 => nullable r1 && nullable r2
  | Alt r1 r2 => nullable r1 || nullable r2
  | Star _ => true
  end.

Fixpoint deriv (c : ascii) (r : regex) : regex :=
  match r with
  | Void => Void
  | Eps => Void
  | Chr d => if Ascii.eqb c d then Eps else Void
  | Cat r1 r2 =>
      if nullable r1
      then Alt (Cat (deriv c r1) r2) (deriv c r2)
      else Cat (deriv c r1) r2
  | Alt r1 r2 => Alt (deriv c r1) (deriv c r2)
  | Star r1 => Cat (deriv c r1) (Star r1)
  end.

(** [bool(re.fullmatch(r, s))]: the whole of [s] is a word of [r]. *)
Fixpoint fullmatch (r : regex) (s : str) : bool :=
  match s with
  | [] => nullable r
  | c :: s' => fullmatch (deriv c r) s'
  end.

(** The pattern-final [$] of [re.match]: it holds at the end of the string
    and just before a newline that ends the string. *)
Definition dollar : regex := Opt (Chr "010"%char).

(** [re.match] of a pattern [^(g)rest] whose group [g] is one greedy
    repetition: the engine tries the longest candidate for the group first
    and backs off one character at a time, so the match found is the one
    with the longest group such that [rest] matches what follows.  The
    result is [group(1)], or [None] when there is no match.  [k] counts the
    group lengths still to try, from the longest. *)
Fixpoint match_group_from (g rest : regex) (s : str) (k : nat) : option str :=
  if fullmatch g (firstn k s) && fullmatch rest (skipn k s)
  then Some (firstn k s)
  else match k with
       | O => None
       | S k' => match_group_from g rest s k'
       end.

Definition match_group1 (g rest : regex) (s : str) : option str :=
  match_group_from g rest s (length s).

(** [re.findall(c, s)] for a one-character pattern [c]: the occurrences of
    [c] in [s], left to right. *)
Definition findall (c : ascii) (s : str) : list str :=
  map (fun x => [x]) (filter (Ascii.eqb c) s).

End Re.

(* ================================================================= *)
(** ** utils.py: the membership oracle *)

Definition chr_a : ascii := "a"%char.
Definition chr_b : ascii := "b"%char.
Definition chr_c : ascii := "c"%char.

(** [r'a*b*'] *)
Definition re_a_star_b_star : Re.regex :=
  Re.Cat (Re.Star (Re.Chr chr_a)) (Re.Star (Re.Chr chr_b)).

(** [r'(ab)*'] *)
Definition re_ab_star : Re.regex :=
  Re.Star (Re.Cat (Re.Chr chr_a) (Re.Chr chr_b)).

(** [r'^(a+)b+c+$']: the group, and what follows it. *)
Definition re_group_a_plus : Re.regex := Re.Plus (Re.Chr chr_a).
Definition re_b_plus_c_plus_end : Re.regex :=
  Re.Cat (Re.Plus (Re.Chr chr_b)) (Re.Cat (Re.Plus (Re.Chr chr_c)) Re.dollar).

Definition is_string_in_language (s language_pattern : str) : bool :=
  if str_eqb language_pattern (lit "a^n b^n") then
    let a_count := len (Re.findall chr_a s) in
    let b_count := len (Re.findall chr_b s) in
    startswith s (lit "a") && endswith s (lit "b")
    && (a_count =? b_count) && negb (contains (lit "ba") s)
  else if str_eqb language_pattern (lit "a^n b^m") then
    Re.fullmatch re_a_star_b_star s
  else if str_eqb language_pattern (lit "a*b*") then
    Re.fullmatch re_a_star_b_star s
  else if str_eqb language_pattern (lit "(ab)*") then
    Re.fullmatch re_ab_star s
  else if str_eqb language_pattern (lit "a^n b^n c^n") then
    match Re.match_group1 re_group_a_plus re_b_plus_c_plus_end s with
    | Some group1 =>
        let n := len group1 in
        str_eqb s (str_mul (lit "a") n ++ str_mul (lit "b") n
                   ++ str_mul (lit "c") n)
    | None => false
    end
  else if str_eqb language_pattern (lit "ww") then
    if len s mod 2 =? 0 then
      let half := len s / 2 in
      str_eqb (slice_to s half) (slice_from s half)
    else false
  else if str_eqb language_pattern (lit "w w_reverse") then
    if len s mod 2 =? 0 then
      let half := len s / 2 in
      str_eqb (slice_to s half) (reversed (slice_from s half))
    else false
  else if str_eqb language_pattern (lit "(b*ab*ab*)*") then
    let a_count := count chr_a s in
    (a_count mod 2 =? 0) && forallb (fun c => contains [c] (lit "ab")) s
  else false.

(** The pattern identifiers the oracle has a branch for. *)
Definition supported_patterns : list str :=
  [ lit "a^n b^n"; lit "a^n b^m"; lit "a*b*"; lit "(ab)*";
    lit "a^n b^n c^n"; lit "ww"; lit "w w_reverse"; lit "(b*ab*ab*)*" ].

(* ================================================================= *)
(** ** pumping_engine.py: the data the engine builds *)

(** One entry of [result["iterations"]]; [P] is the type of its ["parts"]
    mapping, which differs between the two lemmas. *)
Module Iter.
Record t (P : Type) : Type := Build {
  i : Z;
  pumped_string : str;
  in_language : bool;
  parts : P
}.
End Iter.

(** The [result] mapping.  [decomposition] is [None] for the empty mapping
    the engine starts from, and [error] is [None] while the key is absent. *)
Module Verdict.
Record t (D P : Type) : Type := Build {
  string : str;
  pumping_length : Z;
  decomposition : option D;
  iterations : list (Iter.t P);
  lemma_holds : bool;
  language_type : str;
  error : option str
}.

(** The four assignments both loop branches make to [result]. *)
Definition assign {D P} (result : t D P) (decomp : D)
    (iters : list (Iter.t P)) (holds : bool) (label : str) : t D P :=
  {| string := string result;
     pumping_length := pumping_length result;
     decomposition := Some decomp;
     iterations := iters;
     lemma_holds := holds;
     language_type := label;
     error := error result |}.

(** [result["error"] = msg] *)
Definition set_error {D P} (result : t D P) (msg : str) : t D P :=
  {| string := string result;
     pumping_length := pumping_length result;
     decomposition := decomposition result;
     iterations := iterations result;
     lemma_holds := lemma_holds result;
     language_type := language_type result;
     error := Some msg |}.

(** The mapping both entry points start from. *)
Definition initial {D P} (input_string : str) (p : Z) : t D P :=
  {| string := input_string;
     pumping_length := p;
     decomposition := None;
     iterations := [];
     lemma_holds := false;
     language_type := lit "Unknown";
     error := None |}.
End Verdict.

(** [f"String length ({n}) is less than pumping length ({p})"] *)
Definition length_error_message (n p : Z) : str :=
  lit "String length (" ++ str_of_int n
  ++ lit ") is less than pumping length (" ++ str_of_int p ++ lit ")".

(** [not l] for a list: true when it is empty. *)
Definition is_empty {A} (l : list A) : bool :=
  match l with [] => true | _ :: _ => false end.

(* ----------------------------------------------------------------- *)
(** *** Regular pumping lemma *)

Module Reg.

Record decomp : Type := Decomp {
  x : str;
  y : str;
  z : str;
  split_info : str
}.

Record parts : Type := Parts {
  parts_x : str;
  parts_y : str;
  parts_z : str;
  y_repetitions : Z
}.

Definition iteration := Iter.t parts.
Definition verdict := Verdict.t decomp parts.

End Reg.

Definition _generate_regular_decompositions (s : str) (p : Z)
  : list Reg.decomp :=
  let n := len s in
  flat_map (fun split_point =>
    flat_map (fun y_length =>
      let x := slice_to s (split_point - y_length) in
      let y := slice s (split_point - y_length) split_point in
      let z := slice_from s split_point in
      if (len y >? 0) && (len (x ++ y) <=? p) then
        [ {| Reg.x := x; Reg.y := y; Reg.z := z;
             Reg.split_info :=
               lit "|xy| = " ++ str_of_int (len (x ++ y))
               ++ lit ", |y| = " ++ str_of_int (len y) |} ]
      else [])
      (range 1 (split_point + 1)))
    (range 1 (Z.min p n + 1)).

(** The repetition counts of the regular path. *)
Definition regular_counts : list Z := [0; 1; 2; 3; 5].

(** One turn of the inner loop: the state is [(iterations, valid_for_all_i)]. *)
Definition regular_pump_step (language_pattern x y z : str)
    (st : list Reg.iteration * bool) (i : Z) : list Reg.iteration * bool :=
  let pumped_string := (x ++ str_mul y i) ++ z in
  let is_in_language := is_string_in_language pumped_string language_pattern in
  let iterations :=
    fst st ++ [ {| Iter.i := i;
                   Iter.pumped_string := pumped_string;
                   Iter.in_language := is_in_language;
                   Iter.parts := {| Reg.parts_x := x; Reg.parts_y := y;
                                    Reg.parts_z := z;
                                    Reg.y_repetitions := i |} |} ] in
  (iterations, if negb is_in_language then false else snd st).

(** The inner loop over the repetition counts for one candidate. *)
Definition regular_pump (language_pattern : str) (decomp : Reg.decomp)
  : list Reg.iteration * bool :=
  fold_left
    (regular_pump_step language_pattern
       (Reg.x decomp) (Reg.y decomp) (Reg.z decomp))
    regular_counts ([], true).

(** The outer loop; returning without a recursive call is the [break]. *)
Fixpoint regular_search (language_pattern : str)
    (decompositions : list Reg.decomp) (result : Reg.verdict) : Reg.verdict :=
  match decompositions with
  | [] => result
  | decomp :: rest =>
      let (iterations, valid_for_all_i) :=
        regular_pump language_pattern decomp in
      if valid_for_all_i then
        Verdict.assign result decomp iterations true (lit "Possibly Regular")
      else
        regular_search language_pattern rest
          (if is_empty (Verdict.iterations result) then
             Verdict.assign result decomp iterations false (lit "Not Regular")
           else result)
  end.

Definition apply_regular_pumping_lemma (language_pattern input_string : str)
    (p : Z) : Reg.verdict :=
  let result := Verdict.initial input_string p in
  let n := len input_string in
  if n <? p then
    Verdict.set_error result (length_error_message n p)
  else
    let decompositions := _generate_regular_decompositions input_string p in
    regular_search language_pattern decompositions result.

(* ----------------------------------------------------------------- *)
(** *** Context-free pumping lemma *)

Module Cfl.

Record decomp : Type := Decomp {
  u : str;
  v : str;
  w : str;
  x : str;
  y : str;
  split_info : str
}.

Record parts : Type := Parts {
  parts_u : str;
  parts_v : str;
  parts_w : str;
  parts_x : str;
  parts_y : str;
  v_repetitions : Z;
  x_repetitions : Z
}.

Definition iteration := Iter.t parts.
Definition verdict := Verdict.t decomp parts.

End Cfl.

(** The list [decompositions] as it stands when the four loops end, before
    the final slice. *)
Definition cfl_enumeration (s : str) (p : Z) : list Cfl.decomp :=
  let n := len s in
  flat_map (fun vwx_start =>
    flat_map (fun vwx_end =>
      let vwx := slice s vwx_start vwx_end in
      flat_map (fun v_end =>
        flat_map (fun x_start =>
          let v := slice_to vwx v_end in
          let w := slice vwx v_end x_start in
          let x := slice_from vwx x_start in
          if len (v ++ x) >? 0 then
            let u := slice_to s vwx_start in
            let y := slice_from s vwx_end in
            [ {| Cfl.u := u; Cfl.v := v; Cfl.w := w; Cfl.x := x; Cfl.y := y;
                 Cfl.split_info :=
                   lit "|vwx| = " ++ str_of_int (len vwx)
                   ++ lit ", |vx| = " ++ str_of_int (len (v ++ x)) |} ]
          else [])
          (range v_end (len vwx)))
        (range 1 (len vwx)))
      (range (vwx_start + 1) (Z.min (vwx_start + p) n + 1)))
    (range 0 n).

Definition _generate_cfl_decompositions (s : str) (p : Z) : list Cfl.decomp :=
  slice_to (cfl_enumeration s p) 10.

(** The repetition counts of the context-free path. *)
Definition cfl_counts : list Z := [0; 1; 2; 3].

Definition cfl_pump_step (language_pattern u v w x y : str)
    (st : list Cfl.iteration * bool) (i : Z) : list Cfl.iteration * bool :=
  let pumped_string := (((u ++ str_mul v i) ++ w) ++ str_mul x i) ++ y in
  let is_in_language := is_string_in_language pumped_string language_pattern in
  let iterations :=
    fst st ++ [ {| Iter.i := i;
                   Iter.pumped_string := pumped_string;
                   Iter.in_language := is_in_language;
                   Iter.parts := {| Cfl.parts_u := u; Cfl.parts_v := v;
                                    Cfl.parts_w := w; Cfl.parts_x := x;
                                    Cfl.parts_y := y;
                                    Cfl.v_repetitions := i;
                                    Cfl.x_repetitions := i |} |} ] in
  (iterations, if negb is_in_language then false else snd st).

Definition cfl_pump (language_pattern : str) (decomp : Cfl.decomp)
  : list Cfl.iteration * bool :=
  fold_left
    (cfl_pump_step language_pattern (Cfl.u decomp) (Cfl.v decomp)
       (Cfl.w decomp) (Cfl.x decomp) (Cfl.y decomp))
    cfl_counts ([], true).

Fixpoint cfl_search (language_pattern : str)
    (decompositions : list Cfl.decomp) (result : Cfl.verdict) : Cfl.verdict :=
  match decompositions with
  | [] => result
  | decomp :: rest =>
      let (iterations, valid_for_all_i) := cfl_pump language_pattern decomp in
      if valid_for_all_i then
        Verdict.assign result decomp iterations true
          (lit "Possibly Context-Free")
      else
        cfl_search language_pattern rest
          (if is_empty (Verdict.iterations result) then
             Verdict.assign result decomp iterations false
               (lit "Not Context-Free")
           else result)
  end.

Definition apply_cfl_pumping_lemma (language_pattern input_string : str)
    (p : Z) : Cfl.verdict :=
  let result := Verdict.initial input_string p in
  let n := len input_string in
  if n <? p then
    Verdict.set_error result (length_error_message n p)
  else
    let decompositions := _generate_cfl_decompositions input_string p in
    cfl_search language_pattern decompositions result.


(* ----------------------------------------------------------------- *)
(** *** The calls with their exceptions *)

(** The f-string of the error message, field by field, left to right. *)
Definition length_error_message_outcome (n p : Z) : outcome str :=
  match format_int n with
  | Raises e => Raises e
  | Returns digits_n =>
      match format_int p with
      | Raises e => Raises e
      | Returns digits_p =>
          Returns (lit "String length (" ++ digits_n
                   ++ lit ") is less than pumping length (" ++ digits_p
                   ++ lit ")")
      end
  end.

(** [apply_regular_pumping_lemma] as a call: it raises where building the
    error message raises, and returns its verdict otherwise.  The lengths
    the generators format into [split_info] are at most [len(s)] and a
    string is far shorter than the digit limit allows, so the search
    itself does not raise. *)
Definition apply_regular_pumping_lemma_outcome
    (language_pattern input_string : str) (p : Z) : outcome Reg.verdict :=
  let result := Verdict.initial input_string p in
  let n := len input_string in
  if n <? p then
    match length_error_message_outcome n p with
    | Raises e => Raises e
    | Returns message => Returns (Verdict.set_error result message)
    end
  else
    let decompositions := _generate_regular_decompositions input_string p in
    Returns (regular_search language_pattern decompositions result).

Definition apply_cfl_pumping_lemma_outcome
    (language_pattern input_string : str) (p : Z) : outcome Cfl.verdict :=
  let result := Verdict.initial input_string p in
  let n := len input_string in
  if n <? p then
    match length_error_message_outcome n p with
    | Raises e => Raises e
    | Returns message => Returns (Verdict.set_error result message)
    end
  else
    let decompositions := _generate_cfl_decompositions input_string p in
    Returns (cfl_search language_pattern decompositions result).

(* ================================================================= *)
(** ** utils.py: test strings and pumping-length estimate *)

(** [[s for s in samples if min_length <= len(s) <= max_length]] *)
Definition within_lengths (min_length max_length : Z) (samples : list str)
  : list str :=
  filter (fun s => (min_length <=? len s) && (len s <=? max_length)) samples.

(** The source's defaults are [min_length = 1] and [max_length = 10]. *)
Definition generate_test_strings (language_pattern : str)
    (min_length max_length : Z) : list str :=
  let strings :=
    if str_eqb language_pattern (lit "a^n b^n") then
      map (fun n => str_mul (lit "a") n ++ str_mul (lit "b") n)
        (range min_length (max_length + 1))
    else if str_eqb language_pattern (lit "a^n b^m") then
      flat_map (fun n =>
        map (fun m => str_mul (lit "a") n ++ str_mul (lit "b") m)
          (range min_length (max_length + 1)))
        (range min_length (max_length + 1))
    else if str_eqb language_pattern (lit "a*b*") then
      flat_map (fun n =>
        map (fun m => str_mul (lit "a") n ++ str_mul (lit "b") m)
          (range min_length (max_length + 1)))
        (range min_length (max_length + 1))
    else if str_eqb language_pattern (lit "(ab)*") then
      map (fun n => str_mul (lit "ab") n) (range min_length (max_length + 1))
    else if str_eqb language_pattern (lit "a^n b^n c^n") then
      map (fun n => str_mul (lit "a") n ++ str_mul (lit "b") n
                    ++ str_mul (lit "c") n)
        (range min_length (Z.min 4 max_length + 1))
    else if str_eqb language_pattern (lit "ww") then
      within_lengths min_length max_length
        [lit "aa"; lit "abab"; lit "aaaabb"; lit "abcabc"]
    else if str_eqb language_pattern (lit "w w_reverse") then
      within_lengths min_length max_length
        [lit "aa"; lit "abba"; lit "abcba"; lit "aabbaa"]
    else if str_eqb language_pattern (lit "(b*ab*ab*)*") then
      within_lengths min_length max_length
        [empty_str; lit "aa"; lit "baab"; lit "abab"; lit "baba"; lit "bb";
         lit "aabb"; lit "bbaa"; lit "abba"]
    else [] in
  if is_empty strings then
    slice_to [lit "a"; lit "aa"; lit "aaa"; lit "b"; lit "bb"; lit "bbb";
              lit "ab"; lit "aab"; lit "abb"] max_length
  else strings.

(** [x in l] for a list of strings *)
Definition str_in (x : str) (l : list str) : bool := existsb (str_eqb x) l.

Definition calculate_pumping_length (language_type language_pattern : str)
  : Z :=
  if str_eqb language_type (lit "regular") then
    if str_eqb language_pattern (lit "a^n b^n") then 3
    else if str_in language_pattern [lit "a*b*"; lit "a^n b^m"] then 1
    else 2
  else if str_eqb language_type (lit "context_free") then
    if str_eqb language_pattern (lit "a^n b^n c^n") then 5
    else 3
  else 2.

(* ================================================================= *)
(** ** language_parser.py: sample strings *)

(** The source's default is [count = 5]. *)
Definition generate_sample_strings (pattern : str) (count : Z) : list str :=
  let samples :=
    if str_eqb pattern (lit "a^n b^n") then
      map (fun n => str_mul (lit "a") n ++ str_mul (lit "b") n)
        (range 1 (count + 1))
    else if str_eqb pattern (lit "a^n b^m") then
      flat_map (fun i =>
        [str_mul (lit "a") i ++ str_mul (lit "b") i]
        ++ (if i <? count
            then [str_mul (lit "a") i ++ str_mul (lit "b") (i + 1)]
            else []))
        (range 1 (count + 1))
    else if str_eqb pattern (lit "a*b*") then
      [empty_str; lit "a"; lit "b"; lit "aa"; lit "bb"; lit "aaa"; lit "bbb";
       lit "aab"; lit "abb"]
    else if str_eqb pattern (lit "(ab)*") then
      map (fun n => str_mul (lit "ab") n) (range 0 (count + 1))
    else if str_eqb pattern (lit "a^n b^n c^n") then
      map (fun n => str_mul (lit "a") n ++ str_mul (lit "b") n
                    ++ str_mul (lit "c") n)
        (range 1 (Z.min 4 count + 1))
    else if str_eqb pattern (lit "ww") then
      [lit "aa"; lit "abab"; lit "aaaabb"; lit "abcabc"]
    else if str_eqb pattern (lit "w w_reverse") then
      [lit "aa"; lit "abba"; lit "abcba"; lit "aabbaa"]
    else if str_eqb pattern (lit "(b*ab*ab*)*") then
      [empty_str; lit "aa"; lit "baab"; lit "abab"; lit "baba"; lit "bb";
       lit "aabb"; lit "bbaa"; lit "abba"]
    else [] in
  let samples := slice_to samples count in
  if is_empty samples then
    slice_to [lit "a"; lit "aa"; lit "b"; lit "bb"; lit "ab"; lit "aab";
              lit "abb"] count
  else samples.

(* ================================================================= *)
(** ** pumping_engine.py: analyze_language_properties *)

Module Analysis.

(** One entry of [analysis["test_results"]]. *)
Record test_result : Type := TestResult {
  string : str;
  in_language : bool;
  length : Z
}.

(** The [analysis["properties"]] mapping when it is filled. *)
Record properties : Type := Properties {
  can_be_empty : bool;
  min_length : Z;
  max_length_tested : Z;
  sample_count : Z
}.

(** The [analysis] mapping; [properties] is [None] for the empty mapping. *)
Record t : Type := Build {
  pattern : str;
  test_results : list test_result;
  props : option properties
}.

End Analysis.

(** [min(...)] and [max(...)] of a non-empty sequence, given as its first
    element and the rest. *)
Definition min_of (first : Z) (rest : list Z) : Z := fold_left Z.min rest first.
Definition max_of (first : Z) (rest : list Z) : Z := fold_left Z.max rest first.

Definition analyze_language_properties (language_pattern : str)
    (test_strings : list str) : Analysis.t :=
  let test_results :=
    map (fun test_string =>
           {| Analysis.string := test_string;
              Analysis.in_language :=
                is_string_in_language test_string language_pattern;
              Analysis.length := len test_string |})
      test_strings in
  let strings_in_lang := filter Analysis.in_language test_results in
  {| Analysis.pattern := language_pattern;
     Analysis.test_results := test_results;
     Analysis.props :=
       match strings_in_lang with
       | [] => None
       | r :: rest =>
           Some {| Analysis.can_be_empty :=
                     existsb (fun r' => str_eqb (Analysis.string r') empty_str)
                       strings_in_lang;
                   Analysis.min_length :=
                     min_of (Analysis.length r) (map Analysis.length rest);
                   Analysis.max_length_tested :=
                     max_of (Analysis.length r) (map Analysis.length rest);
                   Analysis.sample_count := len strings_in_lang |}
       end |}.
(* ================================================================= *)
(** ** Vocabulary for stating the properties *)

(** The shape both search loops share: [pump] is the inner loop of one
    candidate, [yes] and [no] the two labels. *)
Section SearchShape.

Variables D P : Type.
Variable pump : D -> list (Iter.t P) * bool.
Variables yes no : str.

Fixpoint search (decompositions : list D) (result : Verdict.t D P)
  : Verdict.t D P :=
  match decompositions with
  | [] => result
  | decomp :: rest =>
      let (iterations, valid_for_all_i) := pump decomp in
      if valid_for_all_i then
        Verdict.assign result decomp iterations true yes
      else
        search rest
          (if is_empty (Verdict.iterations result) then
             Verdict.assign result decomp iterations false no
           else result)
  end.

End SearchShape.

(** The shape both inner loops share: [pumped] is the pumping expression,
    [mk_parts] builds the ["parts"] mapping. *)
Section InnerLoopShape.

Variables (P : Type) (pumped : Z -> str) (mk_parts : Z -> P) (pattern : str).

Definition record (i : Z) : Iter.t P :=
  {| Iter.i := i;
     Iter.pumped_string := pumped i;
     Iter.in_language := is_string_in_language (pumped i) pattern;
     Iter.parts := mk_parts i |}.

Definition step (st : list (Iter.t P) * bool) (i : Z)
  : list (Iter.t P) * bool :=
  (fst st ++ [record i],
   if negb (is_string_in_language (pumped i) pattern) then false else snd st).

End InnerLoopShape.

(** The pumped string of a candidate at repetition count [i]. *)
Definition regular_pumped (d : Reg.decomp) (i : Z) : str :=
  (Reg.x d ++ str_mul (Reg.y d) i) ++ Reg.z d.

Definition cfl_pumped (d : Cfl.decomp) (i : Z) : str :=
  (((Cfl.u d ++ str_mul (Cfl.v d) i) ++ Cfl.w d) ++ str_mul (Cfl.x d) i)
  ++ Cfl.y d.

(** Every pumped string of the candidate, at the counts its path tests, is
    a member. *)
Definition regular_all_members (pattern : str) (d : Reg.decomp) : bool :=
  forallb (fun i => is_string_in_language (regular_pumped d i) pattern)
    regular_counts.

Definition cfl_all_members (pattern : str) (d : Cfl.decomp) : bool :=
  forallb (fun i => is_string_in_language (cfl_pumped d i) pattern)
    cfl_counts.

Definition regular_record (pattern : str) (d : Reg.decomp)
  : Z -> Reg.iteration :=
  record (regular_pumped d)
    (fun i => {| Reg.parts_x := Reg.x d; Reg.parts_y := Reg.y d;
                 Reg.parts_z := Reg.z d; Reg.y_repetitions := i |})
    pattern.

Definition cfl_record (pattern : str) (d : Cfl.decomp)
  : Z -> Cfl.iteration :=
  record (cfl_pumped d)
    (fun i => {| Cfl.parts_u := Cfl.u d; Cfl.parts_v := Cfl.v d;
                 Cfl.parts_w := Cfl.w d; Cfl.parts_x := Cfl.x d;
                 Cfl.parts_y := Cfl.y d;
                 Cfl.v_repetitions := i; Cfl.x_repetitions := i |})
    pattern.

(** Every record of a sequence of iteration records is a member. *)
Definition all_in_language {P} (iters : list (Iter.t P)) : bool :=
  forallb (@Iter.in_language P) iters.

(** The words [a^i b^j] and [a^n b^n c^n]. *)
Definition a_i_b_j (i j : nat) : str := repeat chr_a i ++ repeat chr_b j.

Definition a_n_b_n_c_n (n : nat) : str :=
  repeat chr_a n ++ repeat chr_b n ++ repeat chr_c n.

(** A string over the alphabet {a, b}. *)
Definition over_ab (s : str) : Prop :=
  Forall (fun c => c = chr_a \/ c = chr_b) s.

(** A string over the alphabet {a, b, c}. *)
Definition over_abc (s : str) : Prop :=
  Forall (fun c => c = chr_a \/ c = chr_b \/ c = chr_c) s.

(** What a verdict reports: its decomposition, its iteration records, its
    [lemma_holds] flag and its [language_type] label. *)
Definition reports {D P} (r : Verdict.t D P) (d : option D)
    (iters : list (Iter.t P)) (holds : bool) (label : str) : Prop :=
  Verdict.decomposition r = d
  /\ Verdict.iterations r = iters
  /\ Verdict.lemma_holds r = holds
  /\ Verdict.language_type r = label.

(** The word [(ab)^n]. *)
Definition ab_n (n : nat) : str := concat (repeat (lit "ab") n).

(** The number of candidates the regular generator has for a bound [m] on
    the split point: 1 + 2 + ... + m. *)
Definition triangle (m : Z) : Z := m * (m + 1) / 2.

(** The candidates the regular generator builds for one split point. *)
Definition regular_row (s : str) (p : Z) (split_point : Z) : list Reg.decomp :=
  flat_map (fun y_length =>
      let x := slice_to s (split_point - y_length) in
      let y := slice s (split_point - y_length) split_point in
      let z := slice_from s split_point in
      if (len y >? 0) && (len (x ++ y) <=? p) then
        [ {| Reg.x := x; Reg.y := y; Reg.z := z;
             Reg.split_info :=
               lit "|xy| = " ++ str_of_int (len (x ++ y))
               ++ lit ", |y| = " ++ str_of_int (len y) |} ]
      else [])
    (range 1 (split_point + 1)).

(* ----------------------------------------------------------------- *)
(** *** The canonical order of context-free splits *)

(** The four indices of a split, read off its segments: window start,
    window end, and the v-boundary and x-boundary inside the window. *)
Definition cfl_key (d : Cfl.decomp) : Z * Z * Z * Z :=
  (len (Cfl.u d),
   len (Cfl.u d) + len (Cfl.v d) + len (Cfl.w d) + len (Cfl.x d),
   len (Cfl.v d),
   len (Cfl.v d) + len (Cfl.w d)).

(** Lexicographic order on index quadruples. *)
Definition key_lt (k1 k2 : Z * Z * Z * Z) : Prop :=
  match k1, k2 with
  | (a1, b1, c1, e1), (a2, b2, c2, e2) =>
      a1 < a2
      \/ (a1 = a2
          /\ (b1 < b2
              \/ (b1 = b2 /\ (c1 < c2 \/ (c1 = c2 /\ e1 < e2)))))
  end.

(** Ascending window start, then ascending window end, then ascending
    v-boundary, then ascending x-boundary. *)
Definition cfl_before (d1 d2 : Cfl.decomp) : Prop :=
  key_lt (cfl_key d1) (cfl_key d2).

(** A split the enumeration is to contain: its five segments concatenate
    to [s], [v] and [x] are not empty, the window [vwx] is no longer than
    [p], and [split_info] is the text derived from the segments. *)
Definition cfl_admissible (s : str) (p : Z) (d : Cfl.decomp) : Prop :=
  Cfl.u d ++ Cfl.v d ++ Cfl.w d ++ Cfl.x d ++ Cfl.y d = s
  /\ Cfl.v d <> [] /\ Cfl.x d <> []
  /\ len (Cfl.v d) + len (Cfl.w d) + len (Cfl.x d) <= p
  /\ Cfl.split_info d
     = lit "|vwx| = "
       ++ str_of_int (len (Cfl.v d ++ Cfl.w d ++ Cfl.x d))
       ++ lit ", |vx| = " ++ str_of_int (len (Cfl.v d ++ Cfl.x d)).

(** The canonical enumeration for [s] and [p]: the admissible splits, each
    once, in ascending order.  There is exactly one such list. *)
Definition cfl_canonical (s : str) (p : Z) (l : list Cfl.decomp) : Prop :=
  StronglySorted cfl_before l
  /\ forall d, In d l <-> cfl_admissible s p d.

(** The blocks of the four loops of the context-free generator, innermost
    first. *)
Definition cfl_cell (s : str) (vwx_start vwx_end v_end x_start : Z)
  : list Cfl.decomp :=
  let vwx := slice s vwx_start vwx_end in
  let v := slice_to vwx v_end in
  let w := slice vwx v_end x_start in
  let x := slice_from vwx x_start in
  if len (v ++ x) >? 0 then
    let u := slice_to s vwx_start in
    let y := slice_from s vwx_end in
    [ {| Cfl.u := u; Cfl.v := v; Cfl.w := w; Cfl.x := x; Cfl.y := y;
         Cfl.split_info :=
           lit "|vwx| = " ++ str_of_int (len vwx)
           ++ lit ", |vx| = " ++ str_of_int (len (v ++ x)) |} ]
  else [].

Definition cfl_v_row (s : str) (vwx_start vwx_end v_end : Z)
  : list Cfl.decomp :=
  flat_map (cfl_cell s vwx_start vwx_end v_end)
    (range v_end (len (slice s vwx_start vwx_end))).

Definition cfl_window (s : str) (vwx_start vwx_end : Z) : list Cfl.decomp :=
  flat_map (cfl_v_row s vwx_start vwx_end)
    (range 1 (len (slice s vwx_start vwx_end))).

Definition cfl_from (s : str) (p : Z) (vwx_start : Z) : list Cfl.decomp :=
  flat_map (cfl_window s vwx_start)
    (range (vwx_start + 1) (Z.min (vwx_start + p) (len s) + 1)).

(* ================================================================= *)
(** ** Facts about the Python operations *)

Section PyFacts.

Lemma str_eqb_eq (a b : str) : str_eqb a b = true <-> a = b.
Proof.
  revert b; induction a as [|c a IH]; intros [|d b]; simpl;
    try (split; [discriminate | congruence]); try tauto.
  rewrite andb_true_iff, Ascii.eqb_eq, IH.
  split; [intros [-> ->]; reflexivity | intros H; inversion H; auto].
Qed.

Lemma str_eqb_refl (a : str) : str_eqb a a = true.
Proof. apply str_eqb_eq; reflexivity. Qed.

Lemma len_nonneg {A} (l : list A) : 0 <= len l.
Proof. unfold len; lia. Qed.

Lemma len_app {A} (l1 l2 : list A) : len (l1 ++ l2) = len l1 + len l2.
Proof. unfold len; rewrite length_app; lia. Qed.

Lemma in_range (lo hi k : Z) : In k (range lo hi) <-> lo <= k < hi.
Proof.
  unfold range. rewrite in_map_iff. split.
  - intros [j [<- Hj]]. apply in_seq in Hj. lia.
  - intros H. exists (Z.to_nat (k - lo)). split; [lia|].
    apply in_seq. lia.
Qed.

Lemma range_empty (lo hi : Z) : hi <= lo -> range lo hi = [].
Proof.
  intros H. unfold range.
  replace (Z.to_nat (hi - lo)) with 0%nat by lia. reflexivity.
Qed.

Lemma clamp_index_inside (n i : Z) : 0 <= i <= n -> clamp_index n i = i.
Proof.
  intros H. unfold clamp_index.
  destruct (Z.ltb_spec i 0); lia.
Qed.

Lemma slice_inside {A} (l : list A) (i j : Z) :
  0 <= i <= j -> j <= len l ->
  slice l i j = firstn (Z.to_nat (j - i)) (skipn (Z.to_nat i) l).
Proof.
  intros Hi Hj. unfold slice.
  rewrite !clamp_index_inside by lia. reflexivity.
Qed.

Lemma len_slice {A} (l : list A) (i j : Z) :
  0 <= i <= j -> j <= len l -> len (slice l i j) = j - i.
Proof.
  intros Hi Hj. rewrite slice_inside by assumption.
  unfold len in *. rewrite length_firstn, length_skipn. lia.
Qed.

Lemma slice_to_firstn {A} (l : list A) (j : Z) :
  0 <= j <= len l -> slice_to l j = firstn (Z.to_nat j) l.
Proof.
  intros H. unfold slice_to. rewrite slice_inside by lia.
  rewrite Z.sub_0_r. reflexivity.
Qed.

Lemma slice_from_skipn {A} (l : list A) (i : Z) :
  0 <= i <= len l -> slice_from l i = skipn (Z.to_nat i) l.
Proof.
  intros H. unfold slice_from. rewrite slice_inside by lia.
  apply firstn_all2. unfold len in *. rewrite length_skipn. lia.
Qed.

(** Three consecutive slices give the sequence back. *)
Lemma slice_split3 {A} (l : list A) (i j : Z) :
  0 <= i <= j -> j <= len l ->
  slice_to l i ++ slice l i j ++ slice_from l j = l.
Proof.
  intros Hi Hj.
  rewrite slice_to_firstn, slice_from_skipn, slice_inside by lia.
  replace (Z.to_nat j) with (Z.to_nat (j - i) + Z.to_nat i)%nat by lia.
  rewrite <- skipn_skipn, firstn_skipn, firstn_skipn. reflexivity.
Qed.

(** A prefix slice whose bound may exceed the length. *)
Lemma slice_to_prefix {A} (l : list A) (j : Z) :
  0 <= j -> slice_to l j = firstn (Z.to_nat (Z.min j (len l))) l.
Proof.
  intros H. unfold slice_to, slice, clamp_index.
  destruct (Z.ltb_spec 0 0); [lia|]. destruct (Z.ltb_spec j 0); [lia|].
  pose proof (len_nonneg l).
  rewrite (Z.min_l 0) by lia. rewrite Z.sub_0_r. reflexivity.
Qed.

Lemma str_mul_1 (y : str) : str_mul y 1 = y.
Proof. unfold str_mul; simpl. apply app_nil_r. Qed.

(** Slices of a concatenation at its seams. *)
Lemma slice_to_app {A} (x r : list A) : slice_to (x ++ r) (len x) = x.
Proof.
  pose proof (len_nonneg x). pose proof (len_nonneg r).
  rewrite slice_to_firstn by (rewrite len_app; lia).
  unfold len. rewrite Nat2Z.id, firstn_app, Nat.sub_diag, firstn_all.
  simpl. apply app_nil_r.
Qed.

Lemma slice_from_app {A} (x r : list A) : slice_from (x ++ r) (len x) = r.
Proof.
  pose proof (len_nonneg x). pose proof (len_nonneg r).
  rewrite slice_from_skipn by (rewrite len_app; lia).
  unfold len. rewrite Nat2Z.id, skipn_app, Nat.sub_diag, skipn_all.
  reflexivity.
Qed.

Lemma slice_mid_app {A} (x y z : list A) :
  slice (x ++ y ++ z) (len x) (len x + len y) = y.
Proof.
  pose proof (len_nonneg x). pose proof (len_nonneg y).
  pose proof (len_nonneg z).
  rewrite slice_inside by (rewrite ?len_app; lia).
  replace (len x + len y - len x) with (len y) by lia.
  unfold len. rewrite !Nat2Z.id, skipn_app, Nat.sub_diag, skipn_all.
  simpl. rewrite firstn_app, Nat.sub_diag, firstn_all.
  simpl. apply app_nil_r.
Qed.

Lemma slice_from_app2 {A} (x y z : list A) :
  slice_from (x ++ y ++ z) (len x + len y) = z.
Proof.
  rewrite app_assoc, <- len_app. apply slice_from_app.
Qed.

End PyFacts.

(* ================================================================= *)
(** ** The decomposition generators *)

Section Generators.

Variables (s : str) (p : Z).

(** Where an element of the regular generator's output comes from. *)
Lemma in_regular_decompositions (d : Reg.decomp) :
  In d (_generate_regular_decompositions s p) ->
  exists split_point y_length,
    1 <= split_point <= Z.min p (len s) /\
    1 <= y_length <= split_point /\
    Reg.x d = slice_to s (split_point - y_length) /\
    Reg.y d = slice s (split_point - y_length) split_point /\
    Reg.z d = slice_from s split_point.
Proof.
  unfold _generate_regular_decompositions.
  intros H. apply in_flat_map in H. destruct H as [sp [Hsp H]].
  apply in_flat_map in H. destruct H as [yl [Hyl H]].
  apply in_range in Hsp. apply in_range in Hyl.
  destruct (_ && _) in H; [|contradiction].
  destruct H as [<- | []]. simpl.
  exists sp, yl. repeat split; lia.
Qed.

Lemma regular_decomposition_sound (d : Reg.decomp) :
  In d (_generate_regular_decompositions s p) ->
  Reg.x d ++ Reg.y d ++ Reg.z d = s
  /\ len (Reg.y d) > 0
  /\ len (Reg.x d) + len (Reg.y d) <= p.
Proof.
  intros H. apply in_regular_decompositions in H.
  destruct H as [sp [yl [Hsp [Hyl [Hx [Hy Hz]]]]]].
  rewrite Hx, Hy, Hz.
  split; [apply slice_split3; lia|].
  unfold slice_to. rewrite !len_slice by lia. lia.
Qed.

Lemma regular_decompositions_none :
  p <= 0 \/ s = [] -> _generate_regular_decompositions s p = [].
Proof.
  intros H. unfold _generate_regular_decompositions.
  rewrite range_empty; [reflexivity|].
  destruct H as [H | ->]; [lia|]. change (len (@nil ascii)) with 0. lia.
Qed.

(** Where an element of the full context-free enumeration comes from. *)
Lemma in_cfl_enumeration (d : Cfl.decomp) :
  In d (cfl_enumeration s p) ->
  exists vwx_start vwx_end v_end x_start,
    0 <= vwx_start < len s /\
    vwx_start < vwx_end <= Z.min (vwx_start + p) (len s) /\
    1 <= v_end < vwx_end - vwx_start /\
    v_end <= x_start < vwx_end - vwx_start /\
    let vwx := slice s vwx_start vwx_end in
    Cfl.u d = slice_to s vwx_start /\
    Cfl.v d = slice_to vwx v_end /\
    Cfl.w d = slice vwx v_end x_start /\
    Cfl.x d = slice_from vwx x_start /\
    Cfl.y d = slice_from s vwx_end.
Proof.
  unfold cfl_enumeration.
  intros H. apply in_flat_map in H. destruct H as [st [Hst H]].
  apply in_flat_map in H. destruct H as [en [Hen H]].
  apply in_flat_map in H. destruct H as [ve [Hve H]].
  apply in_flat_map in H. destruct H as [xs [Hxs H]].
  apply in_range in Hst. apply in_range in Hen.
  apply in_range in Hve. apply in_range in Hxs.
  assert (Hlen : len (slice s st en) = en - st) by (apply len_slice; lia).
  rewrite Hlen in Hve, Hxs.
  destruct (_ >? _) in H; [|contradiction].
  destruct H as [<- | []]. simpl.
  exists st, en, ve, xs. repeat split; lia.
Qed.

Lemma cfl_enumeration_sound (d : Cfl.decomp) :
  In d (cfl_enumeration s p) ->
  Cfl.u d ++ Cfl.v d ++ Cfl.w d ++ Cfl.x d ++ Cfl.y d = s
  /\ len (Cfl.v d) + len (Cfl.x d) > 0
  /\ len (Cfl.v d) + len (Cfl.w d) + len (Cfl.x d) <= p.
Proof.
  intros H. apply in_cfl_enumeration in H.
  destruct H as [st [en [ve [xs [Hst [Hen [Hve [Hxs H]]]]]]]].
  cbv zeta in H. destruct H as [Hu [Hv [Hw [Hx Hy]]]].
  set (vwx := slice s st en) in *.
  assert (Hlen : len vwx = en - st) by (apply len_slice; lia).
  assert (Hvwx : Cfl.v d ++ Cfl.w d ++ Cfl.x d = vwx).
  { rewrite Hv, Hw, Hx. apply slice_split3; lia. }
  assert (Hs : Cfl.u d ++ vwx ++ Cfl.y d = s).
  { rewrite Hu, Hy. apply slice_split3; lia. }
  split.
  - transitivity (Cfl.u d ++ vwx ++ Cfl.y d); [|exact Hs].
    rewrite <- Hvwx, <- !app_assoc. reflexivity.
  - assert (Hsum : len (Cfl.v d) + len (Cfl.w d) + len (Cfl.x d) = en - st).
    { rewrite <- Hlen, <- Hvwx, !len_app. lia. }
    assert (Hlv : len (Cfl.v d) = ve).
    { rewrite Hv. unfold slice_to. rewrite len_slice; lia. }
    pose proof (len_nonneg (Cfl.x d)). lia.
Qed.

Lemma cfl_decompositions_prefix :
  _generate_cfl_decompositions s p
  = firstn (Z.to_nat (Z.min 10 (len (cfl_enumeration s p))))
      (cfl_enumeration s p).
Proof.
  unfold _generate_cfl_decompositions. apply slice_to_prefix. lia.
Qed.

Lemma cfl_decompositions_incl (d : Cfl.decomp) :
  In d (_generate_cfl_decompositions s p) -> In d (cfl_enumeration s p).
Proof.
  rewrite cfl_decompositions_prefix. intros H.
  rewrite <- (firstn_skipn (Z.to_nat (Z.min 10 (len (cfl_enumeration s p))))
                (cfl_enumeration s p)).
  apply in_or_app; left; exact H.
Qed.

Lemma cfl_decompositions_len :
  len (_generate_cfl_decompositions s p)
  = Z.min 10 (len (cfl_enumeration s p)).
Proof.
  rewrite cfl_decompositions_prefix.
  pose proof (len_nonneg (cfl_enumeration s p)).
  unfold len in *. rewrite length_firstn. lia.
Qed.

End Generators.

(* ================================================================= *)
(** ** The search loop, once for both lemmas *)

Section Search.

Variables D P : Type.
Variable pump : D -> list (Iter.t P) * bool.
Variables yes no : str.

Local Abbreviation search := (search pump yes no).

Hypothesis pump_nonempty : forall d, fst (pump d) <> [].

Lemma search_cons_pass d rest r :
  snd (pump d) = true ->
  search (d :: rest) r = Verdict.assign r d (fst (pump d)) true yes.
Proof. simpl. destruct (pump d) as [it b]; simpl. intros ->; reflexivity. Qed.

Lemma search_cons_fail d rest r :
  snd (pump d) = false ->
  search (d :: rest) r
  = search rest (if is_empty (Verdict.iterations r)
                 then Verdict.assign r d (fst (pump d)) false no else r).
Proof. simpl. destruct (pump d) as [it b]; simpl. intros ->; reflexivity. Qed.

(** Once a fallback is stored, failing candidates leave it alone. *)
Lemma search_settled ds r :
  is_empty (Verdict.iterations r) = false ->
  (forall d, In d ds -> snd (pump d) = false) ->
  search ds r = r.
Proof.
  intros Hr. induction ds as [|d ds IH]; intros Hall; [reflexivity|].
  rewrite search_cons_fail by (apply Hall; left; reflexivity).
  rewrite Hr. apply IH. intros d' Hd'. apply Hall; right; exact Hd'.
Qed.

Lemma assign_not_empty (r : Verdict.t D P) d h l :
  is_empty (Verdict.iterations (Verdict.assign r d (fst (pump d)) h l)) = false.
Proof.
  simpl. pose proof (pump_nonempty d) as H.
  destruct (fst (pump d)); [contradiction|reflexivity].
Qed.

(** The first passing candidate is the one reported, whatever follows it. *)
Lemma search_first_pass pre d post r :
  (forall d', In d' pre -> snd (pump d') = false) ->
  snd (pump d) = true ->
  search (pre ++ d :: post) r = Verdict.assign r d (fst (pump d)) true yes.
Proof.
  revert r. induction pre as [|e pre IH]; intros r Hpre Hd.
  - apply search_cons_pass; exact Hd.
  - simpl app. rewrite search_cons_fail by (apply Hpre; left; reflexivity).
    rewrite IH; [|intros d' Hd'; apply Hpre; right; exact Hd'|exact Hd].
    destruct (is_empty (Verdict.iterations r)); reflexivity.
Qed.

(** When every candidate fails, the first one is the one reported. *)
Lemma search_all_fail d rest r :
  Verdict.iterations r = [] ->
  (forall d', In d' (d :: rest) -> snd (pump d') = false) ->
  search (d :: rest) r = Verdict.assign r d (fst (pump d)) false no.
Proof.
  intros Hr Hall.
  rewrite search_cons_fail by (apply Hall; left; reflexivity).
  rewrite Hr. simpl is_empty. cbv iota.
  apply search_settled; [apply assign_not_empty|].
  intros d' Hd'. apply Hall; right; exact Hd'.
Qed.

(** Whatever the loop returns was either there before or was assigned from
    one candidate of the list. *)
Lemma search_origin ds r :
  search ds r = r
  \/ exists d, In d ds
       /\ search ds r
          = Verdict.assign r d (fst (pump d)) (snd (pump d))
              (if snd (pump d) then yes else no).
Proof.
  revert r. induction ds as [|d ds IH]; intros r; [left; reflexivity|].
  destruct (snd (pump d)) eqn:Hd.
  - right. exists d. split; [left; reflexivity|].
    rewrite Hd. apply search_cons_pass; exact Hd.
  - rewrite search_cons_fail by exact Hd.
    destruct (is_empty (Verdict.iterations r)) eqn:He.
    + right.
      destruct (IH (Verdict.assign r d (fst (pump d)) false no))
        as [H | [d' [Hin H]]].
      * exists d. split; [left; reflexivity|]. rewrite Hd. exact H.
      * exists d'. split; [right; exact Hin|]. exact H.
    + destruct (IH r) as [H | [d' [Hin H]]]; [left; exact H|].
      right. exists d'. split; [right; exact Hin|exact H].
Qed.

End Search.

(** The two loops of the source are instances of [search]. *)
Lemma regular_search_is_search pattern ds r :
  regular_search pattern ds r
  = search (regular_pump pattern) (lit "Possibly Regular") (lit "Not Regular")
      ds r.
Proof.
  revert r. induction ds as [|d ds IH]; intros r; [reflexivity|].
  cbn [regular_search search].
  destruct (regular_pump pattern d) as [it [|]]; [reflexivity|].
  apply IH.
Qed.

Lemma cfl_search_is_search pattern ds r :
  cfl_search pattern ds r
  = search (cfl_pump pattern) (lit "Possibly Context-Free")
      (lit "Not Context-Free") ds r.
Proof.
  revert r. induction ds as [|d ds IH]; intros r; [reflexivity|].
  cbn [cfl_search search].
  destruct (cfl_pump pattern d) as [it [|]]; [reflexivity|].
  apply IH.
Qed.

(* ================================================================= *)
(** ** The inner loops *)

Section InnerLoop.

Variables (P : Type) (pumped : Z -> str) (mk_parts : Z -> P) (pattern : str).

Local Abbreviation record := (record pumped mk_parts pattern).
Local Abbreviation step := (step pumped mk_parts pattern).

Lemma fold_step counts acc ok :
  fold_left step counts (acc, ok)
  = (acc ++ map record counts,
     ok && forallb (fun i => is_string_in_language (pumped i) pattern) counts).
Proof.
  revert acc ok. induction counts as [|i counts IH]; intros acc ok; simpl.
  - rewrite app_nil_r, andb_true_r. reflexivity.
  - unfold step at 2. simpl fst; simpl snd. rewrite IH.
    rewrite <- app_assoc. simpl app. f_equal.
    destruct (is_string_in_language (pumped i) pattern), ok; reflexivity.
Qed.

End InnerLoop.

Lemma regular_pump_eq pattern d :
  regular_pump pattern d
  = (map (regular_record pattern d) regular_counts,
     regular_all_members pattern d).
Proof.
  exact (fold_step (regular_pumped d)
           (fun i => {| Reg.parts_x := Reg.x d; Reg.parts_y := Reg.y d;
                        Reg.parts_z := Reg.z d; Reg.y_repetitions := i |})
           pattern regular_counts [] true).
Qed.

Lemma cfl_pump_eq pattern d :
  cfl_pump pattern d
  = (map (cfl_record pattern d) cfl_counts, cfl_all_members pattern d).
Proof.
  exact (fold_step (cfl_pumped d)
           (fun i => {| Cfl.parts_u := Cfl.u d; Cfl.parts_v := Cfl.v d;
                        Cfl.parts_w := Cfl.w d; Cfl.parts_x := Cfl.x d;
                        Cfl.parts_y := Cfl.y d;
                        Cfl.v_repetitions := i; Cfl.x_repetitions := i |})
           pattern cfl_counts [] true).
Qed.

Lemma regular_pump_nonempty pattern d : fst (regular_pump pattern d) <> [].
Proof. rewrite regular_pump_eq. discriminate. Qed.

Lemma cfl_pump_nonempty pattern d : fst (cfl_pump pattern d) <> [].
Proof. rewrite cfl_pump_eq. discriminate. Qed.

(* ================================================================= *)
(** ** The regular-expression matcher is sound and complete *)

Module ReFacts.
Import Re.

Lemma nullable_spec (r : regex) : nullable r = true <-> Matches r [].
Proof.
  split.
  - induction r; simpl; intros H; try discriminate.
    + constructor.
    + apply andb_true_iff in H. destruct H as [H1 H2].
      change (@nil ascii) with (@nil ascii ++ []). constructor; auto.
    + apply orb_true_iff in H. destruct H as [H | H];
        [apply MAltL | apply MAltR]; auto.
    + constructor.
  - intros H. remember (@nil ascii) as t eqn:E.
    induction H; simpl; try reflexivity; try discriminate.
    + apply app_eq_nil in E. destruct E as [E1 E2].
      rewrite IHMatches1, IHMatches2 by assumption. reflexivity.
    + rewrite IHMatches by assumption. reflexivity.
    + rewrite IHMatches by assumption. apply orb_true_r.
Qed.

Lemma deriv_sound (c : ascii) (r : regex) :
  forall s, Matches (deriv c r) s -> Matches r (c :: s).
Proof.
  induction r; simpl; intros s H.
  - inversion H.
  - inversion H.
  - destruct (Ascii.eqb_spec c a) as [->|]; inversion H; subst. constructor.
  - destruct (nullable r1) eqn:N.
    + inversion H as [| | | ? ? ? H1 | ? ? ? H1 | |]; subst.
      * inversion H1; subst.
        change (c :: s1 ++ s2) with ((c :: s1) ++ s2). constructor; auto.
      * change (c :: s) with ([] ++ c :: s). constructor; auto.
        apply nullable_spec; exact N.
    + inversion H; subst.
      change (c :: s1 ++ s2) with ((c :: s1) ++ s2). constructor; auto.
  - inversion H; subst; [apply MAltL | apply MAltR]; auto.
  - inversion H; subst.
    change (c :: s1 ++ s2) with ((c :: s1) ++ s2). constructor; auto.
Qed.

Lemma deriv_complete (c : ascii) (r : regex) (t : str) :
  Matches r t -> forall u, t = c :: u -> Matches (deriv c r) u.
Proof.
  intros H. induction H; intros u E; simpl; try discriminate.
  - inversion E; subst. rewrite Ascii.eqb_refl. constructor.
  - destruct s1 as [|c1 s1].
    + simpl in E. subst s2.
      assert (N : nullable r1 = true) by (apply nullable_spec; assumption).
      rewrite N. apply MAltR. apply IHMatches2. reflexivity.
    + simpl in E. inversion E; subst.
      assert (M : Matches (Cat (deriv c r1) r2) (s1 ++ s2)).
      { constructor; [apply IHMatches1; reflexivity | assumption]. }
      destruct (nullable r1); [apply MAltL|]; exact M.
  - apply MAltL. apply IHMatches; assumption.
  - apply MAltR. apply IHMatches; assumption.
  - destruct s1 as [|c1 s1].
    + simpl in E. apply IHMatches2 in E. exact E.
    + simpl in E. inversion E; subst.
      constructor; [apply IHMatches1; reflexivity | assumption].
Qed.

Theorem fullmatch_spec (r : regex) (s : str) :
  fullmatch r s = true <-> Matches r s.
Proof.
  revert r. induction s as [|c s IH]; intros r; simpl.
  - apply nullable_spec.
  - rewrite IH. split; [apply deriv_sound|].
    intros H. eapply deriv_complete; [exact H | reflexivity].
Qed.

(** Words of [c*], [c+] and of the tail [b+c+$]. *)
Lemma star_chr_repeat (c : ascii) (n : nat) : Matches (Star (Chr c)) (repeat c n).
Proof.
  induction n as [|n IH]; simpl; [constructor|].
  change (c :: repeat c n) with ([c] ++ repeat c n).
  constructor; [constructor | exact IH].
Qed.

Lemma star_chr_inv (c : ascii) (r : regex) (s : str) :
  Matches r s -> r = Star (Chr c) -> exists n, s = repeat c n.
Proof.
  intros H. induction H; intros E; try discriminate.
  - exists 0%nat. reflexivity.
  - inversion E; subst. destruct (IHMatches2 eq_refl) as [n ->].
    inversion H; subst. exists (S n). reflexivity.
Qed.

Lemma plus_chr_spec (c : ascii) (s : str) :
  Matches (Plus (Chr c)) s <-> exists n, s = repeat c (S n).
Proof.
  unfold Plus. split.
  - intros H. inversion H; subst.
    match goal with H1 : Matches (Chr c) _ |- _ => inversion H1; subst end.
    match goal with H2 : Matches (Star _) _ |- _ =>
      destruct (star_chr_inv H2 eq_refl) as [n ->] end.
    exists n. reflexivity.
  - intros [n ->]. simpl.
    change (c :: repeat c n) with ([c] ++ repeat c n).
    constructor; [constructor | apply star_chr_repeat].
Qed.

Lemma dollar_spec (s : str) :
  Matches dollar s <-> s = [] \/ s = ["010"%char].
Proof.
  unfold dollar, Opt. split.
  - intros H. inversion H; subst.
    + match goal with H1 : Matches Eps _ |- _ => inversion H1; auto end.
    + match goal with H1 : Matches (Chr _) _ |- _ => inversion H1; auto end.
  - intros [-> | ->]; [apply MAltL | apply MAltR]; constructor.
Qed.

(** Which prefixes the matcher of [match_group1] can return. *)
Lemma match_group_from_some (g rest : regex) (s : str) (k : nat) (t : str) :
  match_group_from g rest s k = Some t ->
  exists j, t = firstn j s
            /\ fullmatch g t = true /\ fullmatch rest (skipn j s) = true.
Proof.
  induction k as [|k IH]; cbn [match_group_from]; intros H.
  - destruct (fullmatch g (firstn 0 s) && fullmatch rest (skipn 0 s)) eqn:E;
      [|discriminate].
    inversion H; subst. apply andb_true_iff in E. exists 0%nat. tauto.
  - destruct (fullmatch g (firstn (S k) s)
              && fullmatch rest (skipn (S k) s)) eqn:E.
    + inversion H; subst. apply andb_true_iff in E. exists (S k). tauto.
    + apply IH; exact H.
Qed.

(** The longest admissible group is the one found. *)
Lemma match_group_from_longest (g rest : regex) (s : str) (m : nat) :
  fullmatch g (firstn m s) = true ->
  fullmatch rest (skipn m s) = true ->
  (forall j, (m < j)%nat -> fullmatch g (firstn j s) = false) ->
  forall k, (m <= k)%nat -> match_group_from g rest s k = Some (firstn m s).
Proof.
  intros Hg Hrest Hlong k. induction k as [|k IH]; intros Hk.
  - assert (m = 0%nat) by lia. subst m.
    simpl. simpl in Hg, Hrest. rewrite Hg, Hrest. reflexivity.
  - destruct (Nat.eq_dec m (S k)) as [->|Hne].
    + cbn [match_group_from]. rewrite Hg, Hrest. reflexivity.
    + cbn [match_group_from]. rewrite (Hlong (S k)) by lia.
      cbn [andb]. apply IH. lia.
Qed.

End ReFacts.

(* ================================================================= *)
(** ** The membership oracle, branch by branch *)

Section Oracle.

Lemma member_anbn (s : str) :
  is_string_in_language s (lit "a^n b^n")
  = startswith s (lit "a") && endswith s (lit "b")
    && (len (Re.findall chr_a s) =? len (Re.findall chr_b s))
    && negb (contains (lit "ba") s).
Proof. reflexivity. Qed.

Lemma member_anbncn (s : str) :
  is_string_in_language s (lit "a^n b^n c^n")
  = match Re.match_group1 re_group_a_plus re_b_plus_c_plus_end s with
    | Some group1 =>
        str_eqb s (str_mul (lit "a") (len group1)
                   ++ str_mul (lit "b") (len group1)
                   ++ str_mul (lit "c") (len group1))
    | None => false
    end.
Proof. reflexivity. Qed.

Lemma len_findall (c : ascii) (s : str) : len (Re.findall c s) = count c s.
Proof. unfold Re.findall, count, len. rewrite length_map. reflexivity. Qed.

Lemma str_mul_chr (c : ascii) (n : Z) : str_mul [c] n = repeat c (Z.to_nat n).
Proof.
  unfold str_mul. induction (Z.to_nat n) as [|k IH]; simpl; congruence.
Qed.

Lemma count_repeat_same (c : ascii) (n : nat) :
  count c (repeat c n) = Z.of_nat n.
Proof.
  unfold count, len. induction n as [|n IH]; [reflexivity|].
  simpl. rewrite Ascii.eqb_refl. simpl. lia.
Qed.

Lemma count_repeat_other (c d : ascii) (n : nat) :
  c <> d -> count c (repeat d n) = 0.
Proof.
  intros H. unfold count, len. induction n as [|n IH]; [reflexivity|].
  simpl. destruct (Ascii.eqb_spec c d); [contradiction|exact IH].
Qed.

Lemma count_app (c : ascii) (s t : str) :
  count c (s ++ t) = count c s + count c t.
Proof. unfold count. rewrite filter_app. apply len_app. Qed.

Lemma endswith_app (t suffix : str) : endswith (t ++ suffix) suffix = true.
Proof.
  unfold endswith. rewrite length_app.
  apply andb_true_iff. split; [apply Nat.leb_le; lia|].
  replace (length t + length suffix - length suffix)%nat with (length t) by lia.
  rewrite skipn_app, skipn_all, Nat.sub_diag. apply str_eqb_refl.
Qed.

Lemma contains_ba_repeat_b (j : nat) :
  contains (lit "ba") (repeat chr_b j) = false.
Proof.
  induction j as [|j IH]; [reflexivity|].
  simpl repeat. cbn [contains]. rewrite IH.
  destruct j; reflexivity.
Qed.

Lemma contains_ba_shape (i j : nat) :
  contains (lit "ba") (a_i_b_j i j) = false.
Proof.
  unfold a_i_b_j. induction i as [|i IH]; [apply contains_ba_repeat_b|].
  simpl repeat. simpl app. cbn [contains]. rewrite IH. reflexivity.
Qed.

(** Over {a, b}, a string without the factor [ba] is some [a^i b^j]. *)
Lemma no_ba_shape (s : str) :
  over_ab s -> contains (lit "ba") s = false -> exists i j, s = a_i_b_j i j.
Proof.
  unfold over_ab. induction 1 as [|c s Hc Hs IH]; intros H.
  - exists 0%nat, 0%nat. reflexivity.
  - cbn [contains] in H. apply orb_false_iff in H. destruct H as [Hst H].
    destruct (IH H) as [i [j ->]].
    destruct Hc as [-> | ->].
    + exists (S i), j. reflexivity.
    + destruct i as [|i].
      * exists 0%nat, (S j). reflexivity.
      * discriminate Hst.
Qed.

Lemma over_ab_shape (i j : nat) : over_ab (a_i_b_j i j).
Proof.
  unfold over_ab, a_i_b_j. apply Forall_app. split; apply Forall_forall;
    intros c Hc; apply repeat_spec in Hc; auto.
Qed.

Lemma count_a_shape (i j : nat) : count chr_a (a_i_b_j i j) = Z.of_nat i.
Proof.
  unfold a_i_b_j. rewrite count_app, count_repeat_same, count_repeat_other;
    [lia | discriminate].
Qed.

Lemma count_b_shape (i j : nat) : count chr_b (a_i_b_j i j) = Z.of_nat j.
Proof.
  unfold a_i_b_j. rewrite count_app, count_repeat_same, count_repeat_other;
    [lia | discriminate].
Qed.

(** The four tests of the [a^n b^n] branch, as the source writes them. *)
Lemma member_anbn_tests (s : str) :
  is_string_in_language s (lit "a^n b^n") = true <->
  startswith s (lit "a") = true /\ endswith s (lit "b") = true
  /\ count chr_a s = count chr_b s /\ contains (lit "ba") s = false.
Proof.
  rewrite member_anbn, !len_findall, !andb_true_iff, Z.eqb_eq,
    negb_true_iff. tauto.
Qed.

Lemma member_anbn_shape (s : str) :
  over_ab s ->
  is_string_in_language s (lit "a^n b^n") = true <->
  exists k, (1 <= k)%nat /\ s = a_i_b_j k k.
Proof.
  intros Hab. rewrite member_anbn_tests. split.
  - intros [Hst [_ [Hcnt Hba]]].
    destruct (no_ba_shape Hab Hba) as [i [j ->]].
    rewrite count_a_shape, count_b_shape in Hcnt.
    assert (i = j) by lia. subst j.
    exists i. split; [|reflexivity].
    destruct i; [discriminate Hst | lia].
  - intros [k [Hk ->]]. repeat split.
    + destruct k; [lia | reflexivity].
    + destruct k as [|k]; [lia|]. unfold a_i_b_j.
      change (repeat chr_b (S k)) with (chr_b :: repeat chr_b k).
      rewrite repeat_cons, app_assoc.
      apply (endswith_app _ (lit "b")).
    + rewrite count_a_shape, count_b_shape. reflexivity.
    + apply contains_ba_shape.
Qed.

(** What follows the group of [^(a+)b+c+$] accepts [b^n c^n]. *)
Lemma tail_accepts (n : nat) :
  Re.fullmatch re_b_plus_c_plus_end (repeat chr_b (S n) ++ repeat chr_c (S n))
  = true.
Proof.
  apply ReFacts.fullmatch_spec. unfold re_b_plus_c_plus_end.
  constructor; [apply ReFacts.plus_chr_spec; exists n; reflexivity|].
  rewrite <- (app_nil_r (repeat chr_c (S n))).
  constructor; [apply ReFacts.plus_chr_spec; exists n; reflexivity|].
  apply ReFacts.dollar_spec. left; reflexivity.
Qed.

Lemma group_accepts (n : nat) :
  Re.fullmatch re_group_a_plus (repeat chr_a (S n)) = true.
Proof.
  apply ReFacts.fullmatch_spec, ReFacts.plus_chr_spec.
  exists n; reflexivity.
Qed.

Lemma group_rejects_longer (n j : nat) :
  (S n < j)%nat ->
  Re.fullmatch re_group_a_plus (firstn j (a_n_b_n_c_n (S n))) = false.
Proof.
  intros Hj.
  destruct (Re.fullmatch re_group_a_plus (firstn j (a_n_b_n_c_n (S n))))
    eqn:E; [exfalso|reflexivity].
  apply ReFacts.fullmatch_spec, ReFacts.plus_chr_spec in E.
  destruct E as [q E].
  assert (Hin : In chr_b (firstn j (a_n_b_n_c_n (S n)))).
  { unfold a_n_b_n_c_n. rewrite firstn_app, repeat_length.
    apply in_or_app; right.
    destruct (j - S n)%nat as [|d] eqn:Hd; [lia|].
    simpl. left; reflexivity. }
  rewrite E in Hin. apply repeat_spec in Hin. discriminate Hin.
Qed.

Lemma match_group1_anbncn (n : nat) :
  Re.match_group1 re_group_a_plus re_b_plus_c_plus_end (a_n_b_n_c_n (S n))
  = Some (repeat chr_a (S n)).
Proof.
  assert (Hf : firstn (S n) (a_n_b_n_c_n (S n)) = repeat chr_a (S n)).
  { unfold a_n_b_n_c_n.
    rewrite <- (repeat_length chr_a (S n)) at 1.
    rewrite firstn_app, repeat_length, Nat.sub_diag, firstn_all2
      by (rewrite repeat_length; lia).
    simpl firstn. apply app_nil_r. }
  assert (Hs : skipn (S n) (a_n_b_n_c_n (S n))
               = repeat chr_b (S n) ++ repeat chr_c (S n)).
  { unfold a_n_b_n_c_n.
    rewrite <- (repeat_length chr_a (S n)) at 1.
    rewrite skipn_app, repeat_length, Nat.sub_diag, skipn_all2
      by (rewrite repeat_length; lia).
    reflexivity. }
  unfold Re.match_group1. rewrite <- Hf.
  apply ReFacts.match_group_from_longest.
  - rewrite Hf. apply group_accepts.
  - rewrite Hs. apply tail_accepts.
  - intros j Hj. apply group_rejects_longer; exact Hj.
  - unfold a_n_b_n_c_n. rewrite !length_app, !repeat_length. lia.
Qed.

Lemma member_anbncn_shape (s : str) :
  is_string_in_language s (lit "a^n b^n c^n") = true <->
  exists n, (1 <= n)%nat /\ s = a_n_b_n_c_n n.
Proof.
  rewrite member_anbncn. split.
  - destruct (Re.match_group1 _ _ s) as [g|] eqn:E; [|discriminate].
    intros H. apply str_eqb_eq in H.
    apply ReFacts.match_group_from_some in E.
    destruct E as [j [_ [Hg _]]].
    exists (length g). split.
    + destruct g; [discriminate Hg | simpl; lia].
    + change (lit "a") with [chr_a] in H. change (lit "b") with [chr_b] in H.
      change (lit "c") with [chr_c] in H.
      rewrite !str_mul_chr in H. unfold len in H.
      rewrite Nat2Z.id in H. exact H.
  - intros [n [Hn ->]]. destruct n as [|n]; [lia|].
    rewrite match_group1_anbncn.
    apply str_eqb_eq.
    change (lit "a") with [chr_a]. change (lit "b") with [chr_b].
    change (lit "c") with [chr_c].
    rewrite !str_mul_chr. unfold len.
    rewrite repeat_length, Nat2Z.id. reflexivity.
Qed.

Lemma member_unsupported (s pattern : str) :
  ~ In pattern supported_patterns -> is_string_in_language s pattern = false.
Proof.
  intros H. unfold is_string_in_language.
  repeat match goal with
  | |- (if str_eqb pattern ?l then _ else _) = false =>
      let E := fresh "E" in
      destruct (str_eqb pattern l) eqn:E;
      [ exfalso; apply H; apply str_eqb_eq in E; rewrite E;
        unfold supported_patterns; simpl; tauto | ]
  end.
  reflexivity.
Qed.

End Oracle.

(* ================================================================= *)
(** ** The two entry points *)

Section Engine.

Variables (pattern s : str) (p : Z).

Lemma apply_regular_short :
  len s < p ->
  apply_regular_pumping_lemma pattern s p
  = Verdict.set_error (Verdict.initial s p) (length_error_message (len s) p).
Proof.
  intros H. unfold apply_regular_pumping_lemma.
  destruct (Z.ltb_spec (len s) p); [reflexivity | lia].
Qed.

Lemma apply_cfl_short :
  len s < p ->
  apply_cfl_pumping_lemma pattern s p
  = Verdict.set_error (Verdict.initial s p) (length_error_message (len s) p).
Proof.
  intros H. unfold apply_cfl_pumping_lemma.
  destruct (Z.ltb_spec (len s) p); [reflexivity | lia].
Qed.

Lemma apply_regular_long :
  p <= len s ->
  apply_regular_pumping_lemma pattern s p
  = search (regular_pump pattern) (lit "Possibly Regular") (lit "Not Regular")
      (_generate_regular_decompositions s p) (Verdict.initial s p).
Proof.
  intros H. unfold apply_regular_pumping_lemma.
  destruct (Z.ltb_spec (len s) p); [lia|]. apply regular_search_is_search.
Qed.

Lemma apply_cfl_long :
  p <= len s ->
  apply_cfl_pumping_lemma pattern s p
  = search (cfl_pump pattern) (lit "Possibly Context-Free")
      (lit "Not Context-Free")
      (_generate_cfl_decompositions s p) (Verdict.initial s p).
Proof.
  intros H. unfold apply_cfl_pumping_lemma.
  destruct (Z.ltb_spec (len s) p); [lia|]. apply cfl_search_is_search.
Qed.

Lemma length_error_message_nonempty (n q : Z) : length_error_message n q <> [].
Proof. discriminate. Qed.

(** Either nothing was assigned, or the verdict was assigned from one
    generated candidate. *)
Lemma apply_regular_origin :
  Verdict.iterations (apply_regular_pumping_lemma pattern s p) = []
  /\ Verdict.lemma_holds (apply_regular_pumping_lemma pattern s p) = false
  \/ exists d, In d (_generate_regular_decompositions s p)
       /\ Verdict.iterations (apply_regular_pumping_lemma pattern s p)
          = map (regular_record pattern d) regular_counts
       /\ Verdict.lemma_holds (apply_regular_pumping_lemma pattern s p)
          = regular_all_members pattern d.
Proof.
  destruct (Z.lt_ge_cases (len s) p) as [H | H].
  - left. rewrite apply_regular_short by exact H. split; reflexivity.
  - rewrite apply_regular_long by exact H.
    destruct (search_origin (regular_pump pattern) (lit "Possibly Regular")
                (lit "Not Regular") (_generate_regular_decompositions s p)
                (Verdict.initial s p)) as [E | [d [Hin E]]].
    + left. rewrite E. split; reflexivity.
    + right. exists d. split; [exact Hin|]. rewrite E.
      rewrite regular_pump_eq. split; reflexivity.
Qed.

Lemma apply_cfl_origin :
  Verdict.iterations (apply_cfl_pumping_lemma pattern s p) = []
  /\ Verdict.lemma_holds (apply_cfl_pumping_lemma pattern s p) = false
  \/ exists d, In d (_generate_cfl_decompositions s p)
       /\ Verdict.iterations (apply_cfl_pumping_lemma pattern s p)
          = map (cfl_record pattern d) cfl_counts
       /\ Verdict.lemma_holds (apply_cfl_pumping_lemma pattern s p)
          = cfl_all_members pattern d.
Proof.
  destruct (Z.lt_ge_cases (len s) p) as [H | H].
  - left. rewrite apply_cfl_short by exact H. split; reflexivity.
  - rewrite apply_cfl_long by exact H.
    destruct (search_origin (cfl_pump pattern) (lit "Possibly Context-Free")
                (lit "Not Context-Free") (_generate_cfl_decompositions s p)
                (Verdict.initial s p)) as [E | [d [Hin E]]].
    + left. rewrite E. split; reflexivity.
    + right. exists d. split; [exact Hin|]. rewrite E.
      rewrite cfl_pump_eq. split; reflexivity.
Qed.

End Engine.

Lemma all_in_language_records {P} (pumped : Z -> str) (mk_parts : Z -> P)
    (pattern : str) (counts : list Z) :
  all_in_language (map (record pumped mk_parts pattern) counts)
  = forallb (fun i => is_string_in_language (pumped i) pattern) counts.
Proof.
  unfold all_in_language. induction counts as [|i counts IH];
    [reflexivity|]. simpl. rewrite IH. reflexivity.
Qed.

Lemma all_in_language_regular (pattern : str) (d : Reg.decomp) :
  all_in_language (map (regular_record pattern d) regular_counts)
  = regular_all_members pattern d.
Proof. apply all_in_language_records. Qed.

Lemma all_in_language_cfl (pattern : str) (d : Cfl.decomp) :
  all_in_language (map (cfl_record pattern d) cfl_counts)
  = cfl_all_members pattern d.
Proof. apply all_in_language_records. Qed.

Lemma regular_pumped_1 (s : str) (p : Z) (d : Reg.decomp) :
  In d (_generate_regular_decompositions s p) -> regular_pumped d 1 = s.
Proof.
  intros H. apply regular_decomposition_sound in H. destruct H as [H _].
  unfold regular_pumped. rewrite str_mul_1, <- app_assoc. exact H.
Qed.

Lemma cfl_pumped_1 (s : str) (p : Z) (d : Cfl.decomp) :
  In d (_generate_cfl_decompositions s p) -> cfl_pumped d 1 = s.
Proof.
  intros H. apply cfl_decompositions_incl, cfl_enumeration_sound in H.
  destruct H as [H _].
  unfold cfl_pumped. rewrite !str_mul_1, <- !app_assoc. exact H.
Qed.

(* ----------------------------------------------------------------- *)
(** *** What the search reports *)

Section Reported.

Variables (pattern s : str) (p : Z).
Hypothesis long_enough : p <= len s.

Lemma regular_pump_snd (e : Reg.decomp) :
  snd (regular_pump pattern e) = regular_all_members pattern e.
Proof. rewrite regular_pump_eq. reflexivity. Qed.

Lemma cfl_pump_snd (e : Cfl.decomp) :
  snd (cfl_pump pattern e) = cfl_all_members pattern e.
Proof. rewrite cfl_pump_eq. reflexivity. Qed.

Lemma regular_first_pass pre d post :
  _generate_regular_decompositions s p = pre ++ d :: post ->
  (forall e, In e pre -> regular_all_members pattern e = false) ->
  regular_all_members pattern d = true ->
  reports (apply_regular_pumping_lemma pattern s p) (Some d)
    (fst (regular_pump pattern d)) true (lit "Possibly Regular")
  /\ forall post',
       regular_search pattern (pre ++ d :: post') (Verdict.initial s p)
       = apply_regular_pumping_lemma pattern s p.
Proof.
  intros Hgen Hpre Hd.
  assert (Hpre' : forall e, In e pre -> snd (regular_pump pattern e) = false)
    by (intros e He; rewrite regular_pump_snd; auto).
  rewrite <- regular_pump_snd in Hd.
  rewrite apply_regular_long, Hgen by exact long_enough.
  rewrite search_first_pass by assumption.
  split; [repeat split|].
  intros post'. rewrite regular_search_is_search.
  apply search_first_pass; assumption.
Qed.

Lemma regular_first_candidate d rest :
  _generate_regular_decompositions s p = d :: rest ->
  (forall e, In e (d :: rest) -> regular_all_members pattern e = false) ->
  reports (apply_regular_pumping_lemma pattern s p) (Some d)
    (fst (regular_pump pattern d)) false (lit "Not Regular").
Proof.
  intros Hgen Hall.
  rewrite apply_regular_long, Hgen by exact long_enough.
  rewrite search_all_fail;
    [ repeat split | apply regular_pump_nonempty | reflexivity
    | intros e He; rewrite regular_pump_snd; auto ].
Qed.

Lemma regular_no_candidate :
  _generate_regular_decompositions s p = [] ->
  reports (apply_regular_pumping_lemma pattern s p) None [] false
    (lit "Unknown").
Proof.
  intros Hgen. rewrite apply_regular_long, Hgen by exact long_enough.
  repeat split.
Qed.

Lemma cfl_first_pass pre d post :
  _generate_cfl_decompositions s p = pre ++ d :: post ->
  (forall e, In e pre -> cfl_all_members pattern e = false) ->
  cfl_all_members pattern d = true ->
  reports (apply_cfl_pumping_lemma pattern s p) (Some d)
    (fst (cfl_pump pattern d)) true (lit "Possibly Context-Free")
  /\ forall post',
       cfl_search pattern (pre ++ d :: post') (Verdict.initial s p)
       = apply_cfl_pumping_lemma pattern s p.
Proof.
  intros Hgen Hpre Hd.
  assert (Hpre' : forall e, In e pre -> snd (cfl_pump pattern e) = false)
    by (intros e He; rewrite cfl_pump_snd; auto).
  rewrite <- cfl_pump_snd in Hd.
  rewrite apply_cfl_long, Hgen by exact long_enough.
  rewrite search_first_pass by assumption.
  split; [repeat split|].
  intros post'. rewrite cfl_search_is_search.
  apply search_first_pass; assumption.
Qed.

Lemma cfl_first_candidate d rest :
  _generate_cfl_decompositions s p = d :: rest ->
  (forall e, In e (d :: rest) -> cfl_all_members pattern e = false) ->
  reports (apply_cfl_pumping_lemma pattern s p) (Some d)
    (fst (cfl_pump pattern d)) false (lit "Not Context-Free").
Proof.
  intros Hgen Hall.
  rewrite apply_cfl_long, Hgen by exact long_enough.
  rewrite search_all_fail;
    [ repeat split | apply cfl_pump_nonempty | reflexivity
    | intros e He; rewrite cfl_pump_snd; auto ].
Qed.

Lemma cfl_no_candidate :
  _generate_cfl_decompositions s p = [] ->
  reports (apply_cfl_pumping_lemma pattern s p) None [] false (lit "Unknown").
Proof.
  intros Hgen. rewrite apply_cfl_long, Hgen by exact long_enough.
  repeat split.
Qed.

End Reported.

(* ----------------------------------------------------------------- *)
(** *** When a call returns and when it raises *)

Section Outcomes.

Lemma format_int_returns (z : Z) :
  Z.abs z < 10 ^ int_max_str_digits -> format_int z = Returns (str_of_int z).
Proof.
  intros H. unfold format_int.
  destruct (Z.leb_spec (10 ^ int_max_str_digits) (Z.abs z)) as [H'|_];
    [|reflexivity].
  exfalso. revert H H'. generalize (10 ^ int_max_str_digits). intros; lia.
Qed.

Lemma format_int_raises (z : Z) :
  10 ^ int_max_str_digits <= Z.abs z -> format_int z = Raises ValueError.
Proof.
  intros H. unfold format_int.
  destruct (Z.leb_spec (10 ^ int_max_str_digits) (Z.abs z)) as [_|H'];
    [reflexivity|].
  exfalso. revert H H'. generalize (10 ^ int_max_str_digits). intros; lia.
Qed.

Lemma length_error_message_returns (n p : Z) :
  0 <= n < p -> p < 10 ^ int_max_str_digits ->
  length_error_message_outcome n p = Returns (length_error_message n p).
Proof.
  intros Hn Hp. unfold length_error_message_outcome.
  rewrite !format_int_returns; [reflexivity | |];
    revert Hp; generalize (10 ^ int_max_str_digits); intros; lia.
Qed.

Lemma length_error_message_raises (n p : Z) :
  0 <= n < p -> 10 ^ int_max_str_digits <= p ->
  length_error_message_outcome n p = Raises ValueError.
Proof.
  intros Hn Hp. unfold length_error_message_outcome.
  destruct (format_int n) as [digits_n | []]; [|reflexivity].
  rewrite format_int_raises; [reflexivity|].
  revert Hp; generalize (10 ^ int_max_str_digits); intros; lia.
Qed.

Variables (pattern s : str) (p : Z).

(** A call that returns gives the verdict of [apply_regular_pumping_lemma]. *)
Lemma apply_regular_outcome_short_returns :
  len s < p -> p < 10 ^ int_max_str_digits ->
  apply_regular_pumping_lemma_outcome pattern s p
  = Returns (apply_regular_pumping_lemma pattern s p).
Proof.
  intros H Hp. rewrite apply_regular_short by exact H.
  unfold apply_regular_pumping_lemma_outcome.
  destruct (Z.ltb_spec (len s) p); [|lia].
  rewrite length_error_message_returns; [reflexivity | | exact Hp].
  pose proof (len_nonneg s). lia.
Qed.

Lemma apply_cfl_outcome_short_returns :
  len s < p -> p < 10 ^ int_max_str_digits ->
  apply_cfl_pumping_lemma_outcome pattern s p
  = Returns (apply_cfl_pumping_lemma pattern s p).
Proof.
  intros H Hp. rewrite apply_cfl_short by exact H.
  unfold apply_cfl_pumping_lemma_outcome.
  destruct (Z.ltb_spec (len s) p); [|lia].
  rewrite length_error_message_returns; [reflexivity | | exact Hp].
  pose proof (len_nonneg s). lia.
Qed.

Lemma apply_regular_outcome_short_raises :
  len s < p -> 10 ^ int_max_str_digits <= p ->
  apply_regular_pumping_lemma_outcome pattern s p = Raises ValueError.
Proof.
  intros H Hp. unfold apply_regular_pumping_lemma_outcome.
  destruct (Z.ltb_spec (len s) p); [|lia].
  rewrite length_error_message_raises; [reflexivity | | exact Hp].
  pose proof (len_nonneg s). lia.
Qed.

Lemma apply_cfl_outcome_short_raises :
  len s < p -> 10 ^ int_max_str_digits <= p ->
  apply_cfl_pumping_lemma_outcome pattern s p = Raises ValueError.
Proof.
  intros H Hp. unfold apply_cfl_pumping_lemma_outcome.
  destruct (Z.ltb_spec (len s) p); [|lia].
  rewrite length_error_message_raises; [reflexivity | | exact Hp].
  pose proof (len_nonneg s). lia.
Qed.

Lemma format_int_digits (z : Z) (digits : str) :
  format_int z = Returns digits -> digits = str_of_int z.
Proof.
  unfold format_int. destruct (_ <=? _); [discriminate|].
  intros E; inversion E; reflexivity.
Qed.

(** Whenever a call returns, it returns the verdict of the function. *)
Lemma apply_regular_outcome_returns (v : Reg.verdict) :
  apply_regular_pumping_lemma_outcome pattern s p = Returns v ->
  v = apply_regular_pumping_lemma pattern s p.
Proof.
  unfold apply_regular_pumping_lemma_outcome, apply_regular_pumping_lemma,
    length_error_message_outcome, length_error_message.
  destruct (len s <? p); [|intros E; inversion E; reflexivity].
  destruct (format_int (len s)) as [dn|] eqn:En; [|discriminate].
  destruct (format_int p) as [dp|] eqn:Ep; [|discriminate].
  apply format_int_digits in En, Ep. subst dn dp.
  intros E; inversion E; reflexivity.
Qed.

Lemma apply_cfl_outcome_returns (v : Cfl.verdict) :
  apply_cfl_pumping_lemma_outcome pattern s p = Returns v ->
  v = apply_cfl_pumping_lemma pattern s p.
Proof.
  unfold apply_cfl_pumping_lemma_outcome, apply_cfl_pumping_lemma,
    length_error_message_outcome, length_error_message.
  destruct (len s <? p); [|intros E; inversion E; reflexivity].
  destruct (format_int (len s)) as [dn|] eqn:En; [|discriminate].
  destruct (format_int p) as [dp|] eqn:Ep; [|discriminate].
  apply format_int_digits in En, Ep. subst dn dp.
  intros E; inversion E; reflexivity.
Qed.

End Outcomes.

(* ================================================================= *)
(** ** The context-free enumeration is the canonical one *)

Section SortedLists.

Variables (A B : Type).

Lemma sorted_app (lt : B -> B -> Prop) (l1 l2 : list B) :
  StronglySorted lt l1 -> StronglySorted lt l2 ->
  (forall a b, In a l1 -> In b l2 -> lt a b) ->
  StronglySorted lt (l1 ++ l2).
Proof.
  intros H1 H2 Hc. induction H1 as [|a l1 H1 IH Ha]; [exact H2|].
  simpl. constructor.
  - apply IH. intros x y Hx Hy. apply Hc; [right; exact Hx | exact Hy].
  - apply Forall_app. split; [exact Ha|].
    apply Forall_forall. intros y Hy. apply Hc; [left; reflexivity | exact Hy].
Qed.

(** Blocks laid out along a sorted index list: sorted blocks whose
    elements respect the order of their indices give a sorted whole. *)
Lemma sorted_flat_map (ltA : A -> A -> Prop) (lt : B -> B -> Prop)
    (f : A -> list B) (l : list A) :
  StronglySorted ltA l ->
  (forall a, In a l -> StronglySorted lt (f a)) ->
  (forall a a' b b', In a l -> In a' l -> ltA a a' ->
     In b (f a) -> In b' (f a') -> lt b b') ->
  StronglySorted lt (flat_map f l).
Proof.
  intros Hl. induction Hl as [|a l Hl IH Ha]; intros Hs Hc; [constructor|].
  cbn [flat_map]. apply sorted_app.
  - apply Hs. left; reflexivity.
  - apply IH.
    + intros a' Ha'. apply Hs. right; exact Ha'.
    + intros a1 a2 b1 b2 H1 H2. apply Hc; right; assumption.
  - intros b b' Hb Hb'. apply in_flat_map in Hb'.
    destruct Hb' as [a' [Ha' Hb']].
    rewrite Forall_forall in Ha.
    apply (Hc a a' b b'); auto; [left; reflexivity | right; exact Ha'].
Qed.

(** A strictly sorted list is determined by its elements. *)
Lemma sorted_same_elements (lt : B -> B -> Prop) :
  (forall x, ~ lt x x) -> (forall x y, lt x y -> lt y x -> False) ->
  forall l1 l2,
    StronglySorted lt l1 -> StronglySorted lt l2 ->
    (forall x, In x l1 <-> In x l2) -> l1 = l2.
Proof.
  intros Hirr Hasym l1. induction l1 as [|a l1 IH]; intros l2 H1 H2 Hin.
  - destruct l2 as [|b l2]; [reflexivity|].
    exfalso. apply (proj2 (Hin b)). left; reflexivity.
  - destruct l2 as [|b l2];
      [exfalso; apply (proj1 (Hin a)); left; reflexivity|].
    inversion H1 as [|? ? H1' Ha]; subst.
    inversion H2 as [|? ? H2' Hb]; subst.
    rewrite Forall_forall in Ha, Hb.
    assert (E : a = b).
    { destruct (proj1 (Hin a) (or_introl eq_refl)) as [E | Hab];
        [symmetry; exact E|].
      destruct (proj2 (Hin b) (or_introl eq_refl)) as [E | Hba];
        [exact E|].
      exfalso. apply (Hasym a b); [apply Ha | apply Hb]; assumption. }
    subst b. f_equal. apply IH; try assumption.
    intros x. split; intros Hx.
    + destruct (proj1 (Hin x) (or_intror Hx)) as [E | Hx']; [|exact Hx'].
      subst x. exfalso. apply (Hirr a). apply Ha; exact Hx.
    + destruct (proj2 (Hin x) (or_intror Hx)) as [E | Hx']; [|exact Hx'].
      subst x. exfalso. apply (Hirr a). apply Hb; exact Hx.
Qed.

End SortedLists.

Lemma sorted_range (lo hi : Z) : StronglySorted Z.lt (range lo hi).
Proof.
  unfold range. generalize (Z.to_nat (hi - lo)) as n. intros n.
  assert (G : forall k, StronglySorted Z.lt
                          (map (fun j => lo + Z.of_nat j) (seq k n))).
  { induction n as [|n IH]; intros k; [constructor|].
    cbn [seq map]. constructor; [apply IH|].
    apply Forall_forall. intros y Hy. apply in_map_iff in Hy.
    destruct Hy as [j [<- Hj]]. apply in_seq in Hj. lia. }
  apply G.
Qed.

Lemma key_lt_irrefl (k : Z * Z * Z * Z) : ~ key_lt k k.
Proof. destruct k as [[[a b] c] e]. unfold key_lt. lia. Qed.

Lemma key_lt_asym (k1 k2 : Z * Z * Z * Z) : key_lt k1 k2 -> key_lt k2 k1 -> False.
Proof.
  destruct k1 as [[[a1 b1] c1] e1]. destruct k2 as [[[a2 b2] c2] e2].
  unfold key_lt. lia.
Qed.

Section CflOrder.

Variables (s : str) (p : Z).

Lemma cfl_enumeration_blocks :
  cfl_enumeration s p = flat_map (cfl_from s p) (range 0 (len s)).
Proof. reflexivity. Qed.

(** The one split a cell holds, with its indices. *)
Lemma in_cfl_cell (st en ve xs : Z) (d : Cfl.decomp) :
  0 <= st < en -> en <= len s -> 1 <= ve <= xs -> xs < en - st ->
  In d (cfl_cell s st en ve xs) ->
  cfl_key d = (st, en, ve, xs)
  /\ Cfl.u d ++ Cfl.v d ++ Cfl.w d ++ Cfl.x d ++ Cfl.y d = s
  /\ Cfl.split_info d
     = lit "|vwx| = "
       ++ str_of_int (len (Cfl.v d ++ Cfl.w d ++ Cfl.x d))
       ++ lit ", |vx| = " ++ str_of_int (len (Cfl.v d ++ Cfl.x d)).
Proof.
  intros Hst Hen Hve Hxs. unfold cfl_cell.
  set (vwx := slice s st en).
  assert (Hlen : len vwx = en - st) by (apply len_slice; lia).
  assert (Hvwx : slice_to vwx ve ++ slice vwx ve xs ++ slice_from vwx xs = vwx)
    by (apply slice_split3; lia).
  assert (Hs : slice_to s st ++ vwx ++ slice_from s en = s)
    by (apply slice_split3; lia).
  cbv zeta. destruct (_ >? _); [|contradiction].
  intros [<- | []]. cbn [Cfl.u Cfl.v Cfl.w Cfl.x Cfl.y Cfl.split_info].
  split; [|split].
  - unfold cfl_key. cbn [Cfl.u Cfl.v Cfl.w Cfl.x].
    unfold slice_to, slice_from. rewrite !len_slice by lia.
    repeat f_equal; lia.
  - transitivity (slice_to s st ++ vwx ++ slice_from s en); [|exact Hs].
    f_equal.
    transitivity ((slice_to vwx ve ++ slice vwx ve xs ++ slice_from vwx xs)
                  ++ slice_from s en);
      [rewrite <- !app_assoc; reflexivity | rewrite Hvwx; reflexivity].
  - rewrite Hvwx. reflexivity.
Qed.

Lemma in_cfl_v_row (st en ve : Z) (d : Cfl.decomp) :
  0 <= st < en -> en <= len s -> 1 <= ve ->
  In d (cfl_v_row s st en ve) ->
  exists xs, ve <= xs < en - st /\ In d (cfl_cell s st en ve xs).
Proof.
  intros Hst Hen Hve H. unfold cfl_v_row in H.
  apply in_flat_map in H. destruct H as [xs [Hxs H]].
  apply in_range in Hxs. rewrite len_slice in Hxs by lia.
  exists xs. split; [lia | exact H].
Qed.

Lemma in_cfl_window (st en : Z) (d : Cfl.decomp) :
  0 <= st < en -> en <= len s ->
  In d (cfl_window s st en) ->
  exists ve xs, 1 <= ve <= xs /\ xs < en - st
                /\ In d (cfl_cell s st en ve xs).
Proof.
  intros Hst Hen H. unfold cfl_window in H.
  apply in_flat_map in H. destruct H as [ve [Hve H]].
  apply in_range in Hve.
  apply in_cfl_v_row in H; try lia. destruct H as [xs [Hxs H]].
  exists ve, xs. repeat split; try lia. exact H.
Qed.

Lemma in_cfl_from (st : Z) (d : Cfl.decomp) :
  0 <= st < len s ->
  In d (cfl_from s p st) ->
  exists en ve xs, st < en <= Z.min (st + p) (len s)
                   /\ 1 <= ve <= xs /\ xs < en - st
                   /\ In d (cfl_cell s st en ve xs).
Proof.
  intros Hst H. unfold cfl_from in H.
  apply in_flat_map in H. destruct H as [en [Hen H]].
  apply in_range in Hen.
  apply in_cfl_window in H; try lia. destruct H as [ve [xs [Hve [Hxs H]]]].
  exists en, ve, xs. repeat split; try lia. exact H.
Qed.

Lemma in_cfl_enumeration_cell (d : Cfl.decomp) :
  In d (cfl_enumeration s p) ->
  exists st en ve xs, 0 <= st < len s
                      /\ st < en <= Z.min (st + p) (len s)
                      /\ 1 <= ve <= xs /\ xs < en - st
                      /\ In d (cfl_cell s st en ve xs).
Proof.
  rewrite cfl_enumeration_blocks. intros H.
  apply in_flat_map in H. destruct H as [st [Hst H]].
  apply in_range in Hst.
  apply in_cfl_from in H; try lia.
  destruct H as [en [ve [xs [Hen [Hve [Hxs H]]]]]].
  exists st, en, ve, xs. repeat split; try lia. exact H.
Qed.

(** Keys of the elements of each block. *)
Ltac key_of H :=
  apply in_cfl_cell in H; [destruct H as [H _] | lia ..].

Lemma sorted_cfl_cell (st en ve xs : Z) :
  StronglySorted cfl_before (cfl_cell s st en ve xs).
Proof.
  unfold cfl_cell. cbv zeta. destruct (_ >? _); repeat constructor.
Qed.

Lemma sorted_cfl_v_row (st en ve : Z) :
  0 <= st < en -> en <= len s -> 1 <= ve ->
  StronglySorted cfl_before (cfl_v_row s st en ve).
Proof.
  intros Hst Hen Hve. unfold cfl_v_row.
  apply (sorted_flat_map (ltA := Z.lt)); [apply sorted_range | |].
  - intros xs _. apply sorted_cfl_cell.
  - intros xs xs' d d' Hxs Hxs' Hlt Hd Hd'.
    apply in_range in Hxs, Hxs'. rewrite len_slice in Hxs, Hxs' by lia.
    key_of Hd. key_of Hd'.
    unfold cfl_before. rewrite Hd, Hd'. unfold key_lt. lia.
Qed.

Lemma sorted_cfl_window (st en : Z) :
  0 <= st < en -> en <= len s ->
  StronglySorted cfl_before (cfl_window s st en).
Proof.
  intros Hst Hen. unfold cfl_window.
  apply (sorted_flat_map (ltA := Z.lt)); [apply sorted_range | |].
  - intros ve Hve. apply in_range in Hve. apply sorted_cfl_v_row; lia.
  - intros ve ve' d d' Hve Hve' Hlt Hd Hd'.
    apply in_range in Hve, Hve'.
    apply in_cfl_v_row in Hd; try lia. destruct Hd as [xs [Hxs Hd]].
    apply in_cfl_v_row in Hd'; try lia. destruct Hd' as [xs' [Hxs' Hd']].
    key_of Hd. key_of Hd'.
    unfold cfl_before. rewrite Hd, Hd'. unfold key_lt. lia.
Qed.

Lemma sorted_cfl_from (st : Z) :
  0 <= st < len s -> StronglySorted cfl_before (cfl_from s p st).
Proof.
  intros Hst. unfold cfl_from.
  apply (sorted_flat_map (ltA := Z.lt)); [apply sorted_range | |].
  - intros en Hen. apply in_range in Hen. apply sorted_cfl_window; lia.
  - intros en en' d d' Hen Hen' Hlt Hd Hd'.
    apply in_range in Hen, Hen'.
    apply in_cfl_window in Hd; try lia.
    destruct Hd as [ve [xs [Hve [Hxs Hd]]]].
    apply in_cfl_window in Hd'; try lia.
    destruct Hd' as [ve' [xs' [Hve' [Hxs' Hd']]]].
    key_of Hd. key_of Hd'.
    unfold cfl_before. rewrite Hd, Hd'. unfold key_lt. lia.
Qed.

Lemma sorted_cfl_enumeration :
  StronglySorted cfl_before (cfl_enumeration s p).
Proof.
  rewrite cfl_enumeration_blocks.
  apply (sorted_flat_map (ltA := Z.lt)); [apply sorted_range | |].
  - intros st Hst. apply in_range in Hst. apply sorted_cfl_from; lia.
  - intros st st' d d' Hst Hst' Hlt Hd Hd'.
    apply in_range in Hst, Hst'.
    apply in_cfl_from in Hd; try lia.
    destruct Hd as [en [ve [xs [Hen [Hve [Hxs Hd]]]]]].
    apply in_cfl_from in Hd'; try lia.
    destruct Hd' as [en' [ve' [xs' [Hen' [Hve' [Hxs' Hd']]]]]].
    key_of Hd. key_of Hd'.
    unfold cfl_before. rewrite Hd, Hd'. unfold key_lt. lia.
Qed.

(** The enumeration holds exactly the admissible splits. *)
Lemma cfl_enumeration_admissible (d : Cfl.decomp) :
  In d (cfl_enumeration s p) <-> cfl_admissible s p d.
Proof.
  split.
  - intros H. apply in_cfl_enumeration_cell in H.
    destruct H as [st [en [ve [xs [Hst [Hen [Hve [Hxs H]]]]]]]].
    apply in_cfl_cell in H; try lia. destruct H as [Hk [Hs Hi]].
    unfold cfl_key in Hk. inversion Hk as [[Ku Ke Kv Kx]].
    pose proof (len_nonneg (Cfl.w d)).
    unfold cfl_admissible. repeat split; try assumption.
    + intros E. rewrite E in Kv. change (len (@nil ascii)) with 0 in Kv. lia.
    + intros E. rewrite E in Ke. change (len (@nil ascii)) with 0 in Ke. lia.
    + lia.
  - intros [Hs [Hv [Hx [Hp Hi]]]].
    destruct d as [u v w x y info]. cbn [Cfl.u Cfl.v Cfl.w Cfl.x Cfl.y
                                           Cfl.split_info] in *.
    subst s info.
    pose proof (len_nonneg u). pose proof (len_nonneg w).
    pose proof (len_nonneg y).
    assert (0 < len v)
      by (destruct v; [contradiction | unfold len; simpl; lia]).
    assert (0 < len x)
      by (destruct x; [contradiction | unfold len; simpl; lia]).
    assert (Hvwx : len (v ++ w ++ x) = len v + len w + len x)
      by (rewrite !len_app; lia).
    assert (Es : u ++ v ++ w ++ x ++ y = u ++ (v ++ w ++ x) ++ y)
      by (rewrite <- !app_assoc; reflexivity).
    assert (Hn : len (u ++ (v ++ w ++ x) ++ y)
                 = len u + len (v ++ w ++ x) + len y)
      by (rewrite !len_app; lia).
    rewrite Es. unfold cfl_enumeration.
    apply in_flat_map. exists (len u). split; [apply in_range; lia|].
    apply in_flat_map. exists (len u + len (v ++ w ++ x)).
    split; [apply in_range; lia|].
    cbv beta zeta. rewrite slice_mid_app, slice_to_app, slice_from_app2.
    apply in_flat_map. exists (len v). split; [apply in_range; lia|].
    apply in_flat_map. exists (len v + len w).
    split; [apply in_range; lia|].
    cbv beta.
    rewrite !slice_to_app, !slice_mid_app, !slice_from_app2.
    replace (len (v ++ x) >? 0) with true.
    + left; reflexivity.
    + symmetry. apply Z.gtb_lt. rewrite len_app. lia.
Qed.

Lemma cfl_enumeration_canonical : cfl_canonical s p (cfl_enumeration s p).
Proof.
  split; [apply sorted_cfl_enumeration | apply cfl_enumeration_admissible].
Qed.

(** Any canonical list is the one the loops build. *)
Lemma cfl_canonical_unique (l : list Cfl.decomp) :
  cfl_canonical s p l -> l = cfl_enumeration s p.
Proof.
  intros [Hs Hin].
  apply (sorted_same_elements (lt := cfl_before)).
  - intros d. apply key_lt_irrefl.
  - intros d1 d2. apply key_lt_asym.
  - exact Hs.
  - apply sorted_cfl_enumeration.
  - intros d. rewrite Hin. symmetry. apply cfl_enumeration_admissible.
Qed.

End CflOrder.

(* ================================================================= *)
(** ** The properties of the specification *)

(** C1, as stated, fails where the generator produces no candidate: no
    candidate passes, and the verdict is labelled "Unknown" with no
    decomposition, not "Not Regular" / "Not Context-Free".  The regular
    generator is empty for the empty string with p = 0, the context-free one
    for every string when p = 1. *)
Lemma search_without_candidates_counterexample :
  (0 <= len empty_str
   /\ (forall d, In d (_generate_regular_decompositions empty_str 0) ->
                 regular_all_members (lit "a^n b^n") d = false)
   /\ Verdict.language_type
        (apply_regular_pumping_lemma (lit "a^n b^n") empty_str 0)
      <> lit "Not Regular")
  /\ (1 <= len (lit "a")
      /\ (forall d, In d (_generate_cfl_decompositions (lit "a") 1) ->
                    cfl_all_members (lit "a^n b^n") d = false)
      /\ Verdict.language_type
           (apply_cfl_pumping_lemma (lit "a^n b^n") (lit "a") 1)
         <> lit "Not Context-Free").
Proof.
  split; (split; [vm_compute; discriminate|]);
    (split; [intros d H; vm_compute in H; contradiction|]);
    vm_compute; discriminate.
Qed.

(** C1 (amended): when [len s >= p], each engine walks the generated
    candidates in generator order.  The first candidate whose pumped strings
    are all members is reported with [lemma_holds = true] and the
    "Possibly ..." label, and the candidates after it play no part: any
    other continuation of the list gives the same verdict.  When the list is
    not empty and no candidate passes, the first candidate is reported with
    its iteration records, [lemma_holds = false] and the "Not ..." label.
    When the list is empty the initial verdict is returned unchanged. *)
Theorem search_reports_first_pass_else_first_candidate
    (pattern s : str) (p : Z) :
  p <= len s ->
  (forall pre d post,
      _generate_regular_decompositions s p = pre ++ d :: post ->
      (forall e, In e pre -> regular_all_members pattern e = false) ->
      regular_all_members pattern d = true ->
      reports (apply_regular_pumping_lemma pattern s p) (Some d)
        (fst (regular_pump pattern d)) true (lit "Possibly Regular")
      /\ forall post',
           regular_search pattern (pre ++ d :: post') (Verdict.initial s p)
           = apply_regular_pumping_lemma pattern s p)
  /\ (forall d rest,
      _generate_regular_decompositions s p = d :: rest ->
      (forall e, In e (d :: rest) -> regular_all_members pattern e = false) ->
      reports (apply_regular_pumping_lemma pattern s p) (Some d)
        (fst (regular_pump pattern d)) false (lit "Not Regular"))
  /\ (_generate_regular_decompositions s p = [] ->
      reports (apply_regular_pumping_lemma pattern s p) None [] false
        (lit "Unknown"))
  /\ (forall pre d post,
      _generate_cfl_decompositions s p = pre ++ d :: post ->
      (forall e, In e pre -> cfl_all_members pattern e = false) ->
      cfl_all_members pattern d = true ->
      reports (apply_cfl_pumping_lemma pattern s p) (Some d)
        (fst (cfl_pump pattern d)) true (lit "Possibly Context-Free")
      /\ forall post',
           cfl_search pattern (pre ++ d :: post') (Verdict.initial s p)
           = apply_cfl_pumping_lemma pattern s p)
  /\ (forall d rest,
      _generate_cfl_decompositions s p = d :: rest ->
      (forall e, In e (d :: rest) -> cfl_all_members pattern e = false) ->
      reports (apply_cfl_pumping_lemma pattern s p) (Some d)
        (fst (cfl_pump pattern d)) false (lit "Not Context-Free"))
  /\ (_generate_cfl_decompositions s p = [] ->
      reports (apply_cfl_pumping_lemma pattern s p) None [] false
        (lit "Unknown")).
Proof.
  intros Hp. repeat apply conj.
  - intros pre d post. apply regular_first_pass; exact Hp.
  - intros d rest. apply regular_first_candidate; exact Hp.
  - apply regular_no_candidate; exact Hp.
  - intros pre d post. apply cfl_first_pass; exact Hp.
  - intros d rest. apply cfl_first_candidate; exact Hp.
  - apply cfl_no_candidate; exact Hp.
Qed.

(** C1 at three inputs.  Pattern "(ab)*", s = "abab", p = 2: the third
    regular candidate (x empty, y = "ab", z = "ab") is the first that
    passes.  Pattern "a^n b^n", s = "aabb", p = 3: no regular candidate
    passes and the first one (x empty, y = "a", z = "abb") is reported.
    Pattern "a^n b^n", s = "a", p = 1: the context-free generator has no
    candidate. *)
Lemma search_reports_first_pass_else_first_candidate_witness :
  (2 <= len (lit "abab")
   /\ reports (apply_regular_pumping_lemma (lit "(ab)*") (lit "abab") 2)
        (Some {| Reg.x := empty_str; Reg.y := lit "ab"; Reg.z := lit "ab";
                 Reg.split_info := lit "|xy| = 2, |y| = 2" |})
        (fst (regular_pump (lit "(ab)*")
                {| Reg.x := empty_str; Reg.y := lit "ab"; Reg.z := lit "ab";
                   Reg.split_info := lit "|xy| = 2, |y| = 2" |}))
        true (lit "Possibly Regular"))
  /\ (3 <= len (lit "aabb")
      /\ reports (apply_regular_pumping_lemma (lit "a^n b^n") (lit "aabb") 3)
           (Some {| Reg.x := empty_str; Reg.y := lit "a"; Reg.z := lit "abb";
                    Reg.split_info := lit "|xy| = 1, |y| = 1" |})
           (fst (regular_pump (lit "a^n b^n")
                   {| Reg.x := empty_str; Reg.y := lit "a";
                      Reg.z := lit "abb";
                      Reg.split_info := lit "|xy| = 1, |y| = 1" |}))
           false (lit "Not Regular"))
  /\ (1 <= len (lit "a")
      /\ reports (apply_cfl_pumping_lemma (lit "a^n b^n") (lit "a") 1)
           None [] false (lit "Unknown")).
Proof.
  assert (H2 : 2 <= len (lit "abab")) by (vm_compute; discriminate).
  assert (H3 : 3 <= len (lit "aabb")) by (vm_compute; discriminate).
  assert (H1 : 1 <= len (lit "a")) by (vm_compute; discriminate).
  split; [split; [exact H2|] | split; [split; [exact H3|] | split; [exact H1|]]].
  - destruct (search_reports_first_pass_else_first_candidate
                (lit "(ab)*") (lit "abab") H2) as [Hpass _].
    apply (Hpass
             [ {| Reg.x := empty_str; Reg.y := lit "a"; Reg.z := lit "bab";
                  Reg.split_info := lit "|xy| = 1, |y| = 1" |};
               {| Reg.x := lit "a"; Reg.y := lit "b"; Reg.z := lit "ab";
                  Reg.split_info := lit "|xy| = 2, |y| = 1" |} ]
             _ []).
    + vm_compute; reflexivity.
    + intros e [<- | [<- | []]]; vm_compute; reflexivity.
    + vm_compute; reflexivity.
  - destruct (search_reports_first_pass_else_first_candidate
                (lit "a^n b^n") (lit "aabb") H3) as [_ [Hfail _]].
    apply (Hfail _ (tl (_generate_regular_decompositions (lit "aabb") 3))).
    + vm_compute; reflexivity.
    + intros e He. vm_compute in He.
      repeat (destruct He as [<- | He]; [vm_compute; reflexivity|]).
      contradiction.
  - destruct (search_reports_first_pass_else_first_candidate
                (lit "a^n b^n") (lit "a") H1) as [_ [_ [_ [_ [_ Hnone]]]]].
    apply Hnone. vm_compute; reflexivity.
Defined.

(** C2, as stated, fails on every verdict with no iteration records: each
    of its (zero) records is a member, yet [lemma_holds] is false.  Here the
    context-free path at pattern "(ab)*", s = "a", p = 1 (no candidate) and
    the regular path at pattern "(ab)*", s empty, p = 1 (the error
    verdict). *)
Lemma lemma_holds_iff_all_members_counterexample :
  ~ (Verdict.lemma_holds (apply_cfl_pumping_lemma (lit "(ab)*") (lit "a") 1)
     = true <->
     forall it,
       In it (Verdict.iterations
                (apply_cfl_pumping_lemma (lit "(ab)*") (lit "a") 1)) ->
       Iter.in_language it = true)
  /\ ~ (Verdict.lemma_holds
          (apply_regular_pumping_lemma (lit "(ab)*") empty_str 1)
        = true <->
        forall it,
          In it (Verdict.iterations
                   (apply_regular_pumping_lemma (lit "(ab)*") empty_str 1)) ->
          Iter.in_language it = true).
Proof.
  split; intros [_ H];
    assert (E : false = true)
      by (apply H; intros it Hin; vm_compute in Hin; contradiction);
    discriminate E.
Qed.

(** C2 (amended): for every pattern, string and p, the verdict of either
    engine has [lemma_holds = true] if and only if its iteration sequence is
    not empty and every record in it has [in_language = true]. *)
Theorem lemma_holds_iff_some_and_all_members (pattern s : str) (p : Z) :
  (Verdict.lemma_holds (apply_regular_pumping_lemma pattern s p) = true <->
   Verdict.iterations (apply_regular_pumping_lemma pattern s p) <> []
   /\ forall it,
        In it (Verdict.iterations (apply_regular_pumping_lemma pattern s p)) ->
        Iter.in_language it = true)
  /\ (Verdict.lemma_holds (apply_cfl_pumping_lemma pattern s p) = true <->
      Verdict.iterations (apply_cfl_pumping_lemma pattern s p) <> []
      /\ forall it,
           In it (Verdict.iterations (apply_cfl_pumping_lemma pattern s p)) ->
           Iter.in_language it = true).
Proof.
  split.
  - destruct (apply_regular_origin pattern s p)
      as [[Hi Hh] | [d [_ [Hi Hh]]]]; rewrite Hi, Hh.
    + split; [discriminate | intros [H _]; contradiction].
    + rewrite <- all_in_language_regular. unfold all_in_language.
      rewrite forallb_forall.
      split; [intros H; split; [discriminate | exact H] | tauto].
  - destruct (apply_cfl_origin pattern s p)
      as [[Hi Hh] | [d [_ [Hi Hh]]]]; rewrite Hi, Hh.
    + split; [discriminate | intros [H _]; contradiction].
    + rewrite <- all_in_language_cfl. unfold all_in_language.
      rewrite forallb_forall.
      split; [intros H; split; [discriminate | exact H] | tauto].
Qed.

(** C3, as stated, fails for a pumping length with more than 4300 decimal
    digits: with s = "ab" and p = 10^4300 the length test sends both
    engines to the error message, and formatting p into it raises
    ValueError, so no verdict is returned. *)
Lemma short_string_raises_counterexample :
  len (lit "ab") < 10 ^ 4300
  /\ apply_regular_pumping_lemma_outcome (lit "a^n b^n") (lit "ab") (10 ^ 4300)
     = Raises ValueError
  /\ apply_cfl_pumping_lemma_outcome (lit "a^n b^n") (lit "ab") (10 ^ 4300)
     = Raises ValueError.
Proof.
  split; [vm_compute; reflexivity|].
  split; vm_compute; reflexivity.
Qed.

(** C3 (amended): when [len s < p] and p has at most 4300 decimal digits
    (p < 10^4300, the interpreter's default limit for printing an
    integer), both engines return, without raising, a verdict whose error
    field holds a non-empty message, with no iteration records, the empty
    decomposition, [lemma_holds = false] and the label "Unknown"; when
    [len s < p] and p has more digits than that, both calls raise
    ValueError. *)
Theorem short_string_gives_error_verdict (pattern s : str) (p : Z) :
  len s < p ->
  (p < 10 ^ int_max_str_digits ->
   (exists v msg,
       apply_regular_pumping_lemma_outcome pattern s p = Returns v
       /\ Verdict.error v = Some msg /\ msg <> []
       /\ reports v None [] false (lit "Unknown"))
   /\ (exists v msg,
          apply_cfl_pumping_lemma_outcome pattern s p = Returns v
          /\ Verdict.error v = Some msg /\ msg <> []
          /\ reports v None [] false (lit "Unknown")))
  /\ (10 ^ int_max_str_digits <= p ->
      apply_regular_pumping_lemma_outcome pattern s p = Raises ValueError
      /\ apply_cfl_pumping_lemma_outcome pattern s p = Raises ValueError).
Proof.
  intros H. split.
  - intros Hp.
    rewrite apply_regular_outcome_short_returns,
      apply_cfl_outcome_short_returns by assumption.
    rewrite apply_regular_short, apply_cfl_short by exact H.
    split; eexists; exists (length_error_message (len s) p);
      (split; [reflexivity|]); (split; [reflexivity|]);
      (split; [apply length_error_message_nonempty | repeat split]).
  - intros Hp. split;
      [apply apply_regular_outcome_short_raises
      | apply apply_cfl_outcome_short_raises]; assumption.
Qed.

Lemma short_string_gives_error_verdict_witness :
  (len (lit "ab") < 3 /\ 3 < 10 ^ int_max_str_digits)
  /\ (exists v msg,
         apply_regular_pumping_lemma_outcome (lit "a^n b^n") (lit "ab") 3
         = Returns v
         /\ Verdict.error v = Some msg /\ msg <> []
         /\ reports v None [] false (lit "Unknown"))
  /\ (exists v msg,
         apply_cfl_pumping_lemma_outcome (lit "a^n b^n") (lit "ab") 3
         = Returns v
         /\ Verdict.error v = Some msg /\ msg <> []
         /\ reports v None [] false (lit "Unknown")).
Proof.
  assert (H : len (lit "ab") < 3) by (vm_compute; reflexivity).
  assert (Hp : 3 < 10 ^ int_max_str_digits) by (vm_compute; reflexivity).
  split; [split; assumption|].
  exact (proj1 (short_string_gives_error_verdict (lit "a^n b^n") (lit "ab") H)
           Hp).
Defined.

(** C4: every decomposition of the regular generator satisfies
    x + y + z = s, len(y) > 0 and len(x) + len(y) <= p, and the generator
    returns nothing when p = 0 or s is empty. *)
Theorem regular_generator_invariant (s : str) (p : Z) :
  (forall d, In d (_generate_regular_decompositions s p) ->
     Reg.x d ++ Reg.y d ++ Reg.z d = s
     /\ len (Reg.y d) > 0
     /\ len (Reg.x d) + len (Reg.y d) <= p)
  /\ (p = 0 \/ s = [] -> _generate_regular_decompositions s p = []).
Proof.
  split.
  - intros d. apply regular_decomposition_sound.
  - intros [-> | ->]; apply regular_decompositions_none;
      [left; lia | right; reflexivity].
Qed.

Lemma regular_generator_invariant_witness :
  (lit "a" ++ lit "a" ++ lit "bb" = lit "aabb"
   /\ len (lit "a") > 0
   /\ len (lit "a") + len (lit "a") <= 3)
  /\ _generate_regular_decompositions (lit "aabb") 0 = []
  /\ _generate_regular_decompositions empty_str 3 = [].
Proof.
  split; [|split].
  - apply (proj1 (regular_generator_invariant (lit "aabb") 3)
             {| Reg.x := lit "a"; Reg.y := lit "a"; Reg.z := lit "bb";
                Reg.split_info := lit "|xy| = 2, |y| = 1" |}).
    vm_compute. right; left; reflexivity.
  - apply (proj2 (regular_generator_invariant (lit "aabb") 0)).
    left; reflexivity.
  - apply (proj2 (regular_generator_invariant empty_str 3)).
    right; reflexivity.
Defined.

(** C5: every decomposition of the context-free generator satisfies
    u + v + w + x + y = s, len(v) + len(x) > 0 and
    len(v) + len(w) + len(x) <= p; the generator returns at most 10
    candidates; and what it returns is exactly the first min(10, total)
    elements of the canonical enumeration.  The canonical enumeration is
    stated on its own: the list of the admissible splits (v and x not
    empty, window no longer than p), each once, in ascending order of
    window start, then window end, then v-boundary, then x-boundary.  The
    four loops of the source build it, and whatever list meets that
    description has the generator's output as its prefix. *)
Theorem cfl_generator_invariant (s : str) (p : Z) :
  (forall d, In d (_generate_cfl_decompositions s p) ->
     Cfl.u d ++ Cfl.v d ++ Cfl.w d ++ Cfl.x d ++ Cfl.y d = s
     /\ len (Cfl.v d) + len (Cfl.x d) > 0
     /\ len (Cfl.v d) + len (Cfl.w d) + len (Cfl.x d) <= p)
  /\ len (_generate_cfl_decompositions s p) <= 10
  /\ cfl_canonical s p (cfl_enumeration s p)
  /\ (forall l, cfl_canonical s p l ->
        _generate_cfl_decompositions s p
        = firstn (Z.to_nat (Z.min 10 (len l))) l
        /\ len (_generate_cfl_decompositions s p) = Z.min 10 (len l)).
Proof.
  repeat apply conj.
  - intros d H. apply cfl_enumeration_sound, cfl_decompositions_incl, H.
  - rewrite cfl_decompositions_len. lia.
  - apply sorted_cfl_enumeration.
  - apply cfl_enumeration_admissible.
  - intros l Hl. apply cfl_canonical_unique in Hl. subst l.
    split; [apply cfl_decompositions_prefix | apply cfl_decompositions_len].
Qed.

Lemma cfl_generator_invariant_witness :
  (empty_str ++ lit "a" ++ empty_str ++ lit "ab" ++ lit "bcc" = lit "aabbcc"
   /\ len (lit "a") + len (lit "ab") > 0
   /\ len (lit "a") + len empty_str + len (lit "ab") <= 5)
  /\ len (_generate_cfl_decompositions (lit "aabbcc") 5) = 10.
Proof.
  destruct (cfl_generator_invariant (lit "aabbcc") 5)
    as [Hinv [_ [Hcanon Hprefix]]].
  split.
  - apply (Hinv {| Cfl.u := empty_str; Cfl.v := lit "a"; Cfl.w := empty_str;
                   Cfl.x := lit "ab"; Cfl.y := lit "bcc";
                   Cfl.split_info := lit "|vwx| = 3, |vx| = 3" |}).
    vm_compute. right; left; reflexivity.
  - rewrite (proj2 (Hprefix _ Hcanon)). vm_compute. reflexivity.
Defined.

(** C6, as stated, fails on "acb", a string over {a, b, c}: it starts with
    'a', ends with 'b', has one 'a' and one 'b' and no factor "ba", so the
    oracle accepts it, yet it is no a^k b^k. *)
Lemma anbn_shape_counterexample :
  over_abc (lit "acb")
  /\ is_string_in_language (lit "acb") (lit "a^n b^n") = true
  /\ ~ (exists k, (1 <= k)%nat /\ lit "acb" = a_i_b_j k k).
Proof.
  split; [|split].
  - unfold over_abc. repeat (apply Forall_cons; [auto|]). apply Forall_nil.
  - vm_compute; reflexivity.
  - intros [k [_ E]].
    assert (H : over_ab (lit "acb")) by (rewrite E; apply over_ab_shape).
    unfold over_ab in H. rewrite Forall_forall in H.
    destruct (H chr_c) as [C | C]; [right; left; reflexivity | |];
      discriminate C.
Qed.

(** C6 (amended): for every string s, member(s, "a^n b^n") is true if and
    only if s starts with 'a', ends with 'b', has as many 'a' as 'b' and has
    no factor "ba"; for every string s over the alphabet {a, b} this is
    equivalent to s being a^k b^k for some k >= 1; the empty string is not a
    member. *)
Theorem anbn_membership (s : str) :
  (is_string_in_language s (lit "a^n b^n") = true <->
   startswith s (lit "a") = true /\ endswith s (lit "b") = true
   /\ count chr_a s = count chr_b s /\ contains (lit "ba") s = false)
  /\ (over_ab s ->
      (is_string_in_language s (lit "a^n b^n") = true <->
       exists k, (1 <= k)%nat /\ s = a_i_b_j k k))
  /\ is_string_in_language empty_str (lit "a^n b^n") = false.
Proof.
  split; [apply member_anbn_tests|].
  split; [apply member_anbn_shape | reflexivity].
Qed.

Lemma anbn_membership_witness :
  over_ab (lit "aabb")
  /\ is_string_in_language (lit "aabb") (lit "a^n b^n") = true.
Proof.
  assert (H : over_ab (lit "aabb")).
  { unfold over_ab. repeat (apply Forall_cons; [auto|]). apply Forall_nil. }
  split; [exact H|].
  apply (proj1 (proj2 (anbn_membership (lit "aabb"))) H).
  exists 2%nat. split; [lia | reflexivity].
Defined.

(** C7: for every string s, member(s, "a^n b^n c^n") is true if and only if
    s is a^n b^n c^n for some n >= 1; the empty string is not a member. *)
Theorem anbncn_membership (s : str) :
  (is_string_in_language s (lit "a^n b^n c^n") = true <->
   exists n, (1 <= n)%nat /\ s = a_n_b_n_c_n n)
  /\ is_string_in_language empty_str (lit "a^n b^n c^n") = false.
Proof.
  split; [apply member_anbncn_shape | reflexivity].
Qed.

(** C8: the oracle is total and deterministic: for every string and every
    pattern identifier it yields exactly one boolean; and for a pattern
    identifier outside the supported set it yields false on every string. *)
Theorem oracle_total_and_false_on_unknown (s pattern : str) :
  (exists! b, is_string_in_language s pattern = b)
  /\ (~ In pattern supported_patterns ->
      is_string_in_language s pattern = false).
Proof.
  split.
  - exists (is_string_in_language s pattern). split; [reflexivity|].
    intros b H; exact H.
  - apply member_unsupported.
Qed.

Lemma oracle_total_and_false_on_unknown_witness :
  ~ In (lit "balanced_parentheses") supported_patterns
  /\ is_string_in_language (lit "ab") (lit "balanced_parentheses") = false.
Proof.
  assert (H : ~ In (lit "balanced_parentheses") supported_patterns).
  { unfold supported_patterns. simpl.
    intros [E | [E | [E | [E | [E | [E | [E | [E | []]]]]]]]];
      discriminate E. }
  split; [exact H|].
  apply (proj2 (oracle_total_and_false_on_unknown
                  (lit "ab") (lit "balanced_parentheses")) H).
Defined.

(** C9: for pattern "(ab)*", s = "abab", p = 2 the regular engine returns
    [lemma_holds = true], the label "Possibly Regular", the decomposition
    x empty, y = "ab", z = "ab", and five iteration records, at
    i = 0, 1, 2, 3, 5, each a member. *)
Theorem scenario_ab_star_abab :
  reports (apply_regular_pumping_lemma (lit "(ab)*") (lit "abab") 2)
    (Some {| Reg.x := empty_str; Reg.y := lit "ab"; Reg.z := lit "ab";
             Reg.split_info := lit "|xy| = 2, |y| = 2" |})
    (Verdict.iterations
       (apply_regular_pumping_lemma (lit "(ab)*") (lit "abab") 2))
    true (lit "Possibly Regular")
  /\ map (fun it => (Iter.i it, Iter.pumped_string it, Iter.in_language it))
       (Verdict.iterations
          (apply_regular_pumping_lemma (lit "(ab)*") (lit "abab") 2))
     = [ (0, lit "ab", true); (1, lit "abab", true);
         (2, lit "ababab", true); (3, lit "abababab", true);
         (5, lit "abababababab", true) ].
Proof. vm_compute. repeat split. Qed.

(** C10: when [len s >= p] and the verdict of either engine has iteration
    records, there is a record with i = 1, and every record with i = 1 has
    the input string s as its pumped string. *)
Theorem pumping_once_is_identity (pattern s : str) (p : Z) :
  p <= len s ->
  (Verdict.iterations (apply_regular_pumping_lemma pattern s p) <> [] ->
   (exists it,
       In it (Verdict.iterations (apply_regular_pumping_lemma pattern s p))
       /\ Iter.i it = 1)
   /\ forall it,
       In it (Verdict.iterations (apply_regular_pumping_lemma pattern s p)) ->
       Iter.i it = 1 -> Iter.pumped_string it = s)
  /\ (Verdict.iterations (apply_cfl_pumping_lemma pattern s p) <> [] ->
      (exists it,
          In it (Verdict.iterations (apply_cfl_pumping_lemma pattern s p))
          /\ Iter.i it = 1)
      /\ forall it,
          In it (Verdict.iterations (apply_cfl_pumping_lemma pattern s p)) ->
          Iter.i it = 1 -> Iter.pumped_string it = s).
Proof.
  intros _. split.
  - destruct (apply_regular_origin pattern s p)
      as [[Hi _] | [d [Hd [Hi _]]]]; rewrite Hi; [contradiction|].
    intros _. split.
    + exists (regular_record pattern d 1). split; [|reflexivity].
      apply in_map. simpl; auto.
    + intros it Hin Hone. apply in_map_iff in Hin.
      destruct Hin as [i [<- _]]. simpl in Hone. subst i.
      simpl. apply (regular_pumped_1 _ _ _ Hd).
  - destruct (apply_cfl_origin pattern s p)
      as [[Hi _] | [d [Hd [Hi _]]]]; rewrite Hi; [contradiction|].
    intros _. split.
    + exists (cfl_record pattern d 1). split; [|reflexivity].
      apply in_map. simpl; auto.
    + intros it Hin Hone. apply in_map_iff in Hin.
      destruct Hin as [i [<- _]]. simpl in Hone. subst i.
      simpl. apply (cfl_pumped_1 _ _ _ Hd).
Qed.

Lemma pumping_once_is_identity_witness :
  2 <= len (lit "abab")
  /\ forall it,
       In it (Verdict.iterations
                (apply_regular_pumping_lemma (lit "(ab)*") (lit "abab") 2)) ->
       Iter.i it = 1 -> Iter.pumped_string it = lit "abab".
Proof.
  assert (H : 2 <= len (lit "abab")) by (vm_compute; discriminate).
  split; [exact H|].
  apply (proj1 (pumping_once_is_identity (lit "(ab)*") (lit "abab") H)).
  vm_compute. discriminate.
Defined.

(* ================================================================= *)
(** ** The other branches of the oracle *)

Section OracleBranches.

Lemma member_astar_bstar (s pattern : str) :
  pattern = lit "a*b*" \/ pattern = lit "a^n b^m" ->
  is_string_in_language s pattern = Re.fullmatch re_a_star_b_star s.
Proof. intros [-> | ->]; reflexivity. Qed.

Lemma astar_bstar_spec (s : str) :
  Re.Matches re_a_star_b_star s <-> exists i j, s = a_i_b_j i j.
Proof.
  unfold re_a_star_b_star. split.
  - intros H. inversion H; subst.
    match goal with
    | H1 : Re.Matches (Re.Star (Re.Chr chr_a)) _,
      H2 : Re.Matches (Re.Star (Re.Chr chr_b)) _ |- _ =>
        destruct (ReFacts.star_chr_inv H1 eq_refl) as [i ->];
        destruct (ReFacts.star_chr_inv H2 eq_refl) as [j ->]
    end.
    exists i, j. reflexivity.
  - intros [i [j ->]]. unfold a_i_b_j.
    constructor; apply ReFacts.star_chr_repeat.
Qed.

Lemma member_astar_bstar_shape (s pattern : str) :
  pattern = lit "a*b*" \/ pattern = lit "a^n b^m" ->
  (is_string_in_language s pattern = true <-> exists i j, s = a_i_b_j i j).
Proof.
  intros Hp. rewrite (member_astar_bstar s Hp), ReFacts.fullmatch_spec.
  apply astar_bstar_spec.
Qed.

Lemma ab_star_repeat (n : nat) : Re.Matches re_ab_star (ab_n n).
Proof.
  unfold re_ab_star. induction n as [|n IH]; [apply Re.MStarNil|].
  change (ab_n (S n)) with (([chr_a] ++ [chr_b]) ++ ab_n n).
  constructor; [constructor; constructor | exact IH].
Qed.

Lemma ab_star_inv (r : Re.regex) (s : str) :
  Re.Matches r s -> r = re_ab_star -> exists n, s = ab_n n.
Proof.
  intros H. induction H; intros E; try discriminate.
  - exists 0%nat. reflexivity.
  - unfold re_ab_star in E. inversion E; subst.
    destruct (IHMatches2 eq_refl) as [n ->].
    inversion H; subst.
    repeat match goal with
    | H1 : Re.Matches (Re.Chr _) _ |- _ => inversion H1; subst; clear H1
    end.
    exists (S n). reflexivity.
Qed.

Lemma member_ab_star_shape (s : str) :
  is_string_in_language s (lit "(ab)*") = true <-> exists n, s = ab_n n.
Proof.
  change (is_string_in_language s (lit "(ab)*")) with (Re.fullmatch re_ab_star s).
  rewrite ReFacts.fullmatch_spec. split.
  - intros H. exact (ab_star_inv H eq_refl).
  - intros [n ->]. apply ab_star_repeat.
Qed.

Lemma member_ww (s : str) :
  is_string_in_language s (lit "ww")
  = if len s mod 2 =? 0
    then str_eqb (slice_to s (len s / 2)) (slice_from s (len s / 2))
    else false.
Proof. reflexivity. Qed.

Lemma member_wwr (s : str) :
  is_string_in_language s (lit "w w_reverse")
  = if len s mod 2 =? 0
    then str_eqb (slice_to s (len s / 2)) (reversed (slice_from s (len s / 2)))
    else false.
Proof. reflexivity. Qed.

Lemma half_bounds (n : Z) : 0 <= n -> 0 <= n / 2 <= n.
Proof.
  intros H. split; [apply Z.div_pos; lia|].
  apply Z.div_le_upper_bound; lia.
Qed.

(** Cutting a string of even length in the middle. *)
Lemma halves (s : str) :
  len s mod 2 = 0 ->
  s = slice_to s (len s / 2) ++ slice_from s (len s / 2)
  /\ len (slice_to s (len s / 2)) = len (slice_from s (len s / 2)).
Proof.
  intros Hm. pose proof (len_nonneg s) as Hn.
  pose proof (half_bounds Hn) as Hh.
  rewrite slice_to_firstn, slice_from_skipn by lia.
  split; [symmetry; apply firstn_skipn|].
  unfold len in *. rewrite length_firstn, length_skipn.
  assert (Z.of_nat (List.length s) = 2 * (Z.of_nat (List.length s) / 2))
    by (apply Z.div_exact; lia). lia.
Qed.

Lemma halves_of_app (u v : str) :
  List.length u = List.length v ->
  len (u ++ v) mod 2 = 0
  /\ slice_to (u ++ v) (len (u ++ v) / 2) = u
  /\ slice_from (u ++ v) (len (u ++ v) / 2) = v.
Proof.
  intros E.
  assert (Hl : len (u ++ v) = len u * 2) by (rewrite len_app; unfold len; lia).
  rewrite Hl, Z_mod_mult, Z_div_mult by lia.
  pose proof (len_nonneg u). pose proof (len_nonneg v).
  assert (Hb : 0 <= len u <= len (u ++ v)) by (rewrite len_app; lia).
  rewrite slice_to_firstn, slice_from_skipn by exact Hb.
  unfold len. rewrite Nat2Z.id.
  split; [reflexivity|]. split.
  - rewrite firstn_app, Nat.sub_diag, firstn_all. simpl. apply app_nil_r.
  - rewrite skipn_app, Nat.sub_diag, skipn_all. reflexivity.
Qed.

Lemma member_ww_shape (s : str) :
  is_string_in_language s (lit "ww") = true <-> exists w, s = w ++ w.
Proof.
  rewrite member_ww. split.
  - destruct (Z.eqb_spec (len s mod 2) 0) as [Hm|]; [|discriminate].
    intros H. apply str_eqb_eq in H.
    destruct (halves s Hm) as [Hs _].
    exists (slice_to s (len s / 2)). rewrite H at 2. exact Hs.
  - intros [w ->].
    destruct (halves_of_app w w eq_refl) as [Hm [Hl Hr]].
    rewrite Hm, Hl, Hr. apply str_eqb_refl.
Qed.

Lemma member_wwr_shape (s : str) :
  is_string_in_language s (lit "w w_reverse") = true <->
  exists w, s = w ++ rev w.
Proof.
  rewrite member_wwr. unfold reversed. split.
  - destruct (Z.eqb_spec (len s mod 2) 0) as [Hm|]; [|discriminate].
    intros H. apply str_eqb_eq in H.
    destruct (halves s Hm) as [Hs _].
    exists (slice_to s (len s / 2)).
    rewrite H at 2. rewrite rev_involutive. exact Hs.
  - intros [w ->].
    destruct (halves_of_app w (rev w) (eq_sym (length_rev w))) as [Hm [Hl Hr]].
    rewrite Hm, Hl, Hr, rev_involutive. apply str_eqb_refl.
Qed.

Lemma member_even_a (s : str) :
  is_string_in_language s (lit "(b*ab*ab*)*")
  = (count chr_a s mod 2 =? 0)
    && forallb (fun c => contains [c] (lit "ab")) s.
Proof. reflexivity. Qed.

Lemma contains_singleton (c : ascii) (s : str) :
  contains [c] s = true <-> In c s.
Proof.
  induction s as [|d s IH].
  - simpl. split; [discriminate | contradiction].
  - cbn [contains startswith firstn List.length str_eqb].
    rewrite orb_true_iff, andb_true_r, Ascii.eqb_eq, IH. reflexivity.
Qed.

Lemma in_ab_iff (c : ascii) :
  contains [c] (lit "ab") = true <-> c = chr_a \/ c = chr_b.
Proof.
  rewrite contains_singleton. simpl.
  split; [intros [H | [H | []]] | intros [H | H]]; auto.
Qed.

Lemma all_in_ab_iff (s : str) :
  forallb (fun c => contains [c] (lit "ab")) s = true <-> over_ab s.
Proof.
  unfold over_ab. rewrite forallb_forall, Forall_forall.
  split; intros H c Hc; apply in_ab_iff; auto.
Qed.

Lemma member_even_a_iff (s : str) :
  is_string_in_language s (lit "(b*ab*ab*)*") = true <->
  over_ab s /\ count chr_a s mod 2 = 0.
Proof.
  rewrite member_even_a, andb_true_iff, Z.eqb_eq, all_in_ab_iff. tauto.
Qed.

End OracleBranches.

(** X1: for the patterns "a*b*" and "a^n b^m" alike, a string is a member
    exactly when it is some a^i b^j (i, j >= 0), so the two patterns accept
    the same strings. *)
Theorem astar_bstar_membership (s : str) :
  (is_string_in_language s (lit "a*b*") = true <->
   exists i j, s = a_i_b_j i j)
  /\ is_string_in_language s (lit "a^n b^m")
     = is_string_in_language s (lit "a*b*").
Proof.
  split; [|reflexivity].
  apply member_astar_bstar_shape. left; reflexivity.
Qed.

(** X2: a string is a member of "(ab)*" exactly when it is n copies of
    "ab" for some n >= 0. *)
Theorem ab_star_membership (s : str) :
  is_string_in_language s (lit "(ab)*") = true <-> exists n, s = ab_n n.
Proof. apply member_ab_star_shape. Qed.

(** X3: a string is a member of "ww" exactly when it is some string
    followed by itself. *)
Theorem ww_membership (s : str) :
  is_string_in_language s (lit "ww") = true <-> exists w, s = w ++ w.
Proof. apply member_ww_shape. Qed.

(** X4: a string is a member of "w w_reverse" exactly when it is some
    string followed by its reversal. *)
Theorem wwr_membership (s : str) :
  is_string_in_language s (lit "w w_reverse") = true <->
  exists w, s = w ++ rev w.
Proof. apply member_wwr_shape. Qed.

(** X5: the members of the even-number-of-a pattern (the last branch of
    the oracle) are closed under concatenation and under reversal. *)
Theorem even_a_closed (s t : str) :
  is_string_in_language s (lit "(b*ab*ab*)*") = true ->
  is_string_in_language t (lit "(b*ab*ab*)*") = true ->
  is_string_in_language (s ++ t) (lit "(b*ab*ab*)*") = true
  /\ is_string_in_language (rev s) (lit "(b*ab*ab*)*") = true.
Proof.
  rewrite !member_even_a_iff. intros [Hs Es] [Ht Et]. split; split.
  - apply Forall_app; split; assumption.
  - rewrite count_app, Z.add_mod, Es, Et by lia. reflexivity.
  - apply Forall_rev; exact Hs.
  - enough (E : count chr_a (rev s) = count chr_a s) by (rewrite E; exact Es).
    clear. induction s as [|c s IH]; [reflexivity|].
    simpl rev. rewrite count_app, IH.
    change (c :: s) with ([c] ++ s). rewrite count_app. lia.
Qed.

Lemma even_a_closed_witness :
  is_string_in_language (lit "aba" ++ lit "baab") (lit "(b*ab*ab*)*") = true
  /\ is_string_in_language (rev (lit "aba")) (lit "(b*ab*ab*)*") = true.
Proof.
  apply even_a_closed; vm_compute; reflexivity.
Defined.

(* ================================================================= *)
(** ** More on the generators: completeness, size, first candidate *)

Section GeneratorsMore.

Lemma len_range (lo hi : Z) : len (range lo hi) = Z.max 0 (hi - lo).
Proof. unfold range, len. rewrite length_map, length_seq. lia. Qed.

Lemma range_cons (lo hi : Z) : lo < hi -> range lo hi = lo :: range (lo + 1) hi.
Proof.
  intros H. unfold range.
  replace (Z.to_nat (hi - lo)) with (S (Z.to_nat (hi - (lo + 1)))) by lia.
  cbn [seq map]. f_equal; [lia|].
  rewrite <- seq_shift, map_map. apply map_ext. intros k. lia.
Qed.

Lemma range_snoc (lo hi : Z) : lo <= hi -> range lo (hi + 1) = range lo hi ++ [hi].
Proof.
  intros H. unfold range.
  replace (Z.to_nat (hi + 1 - lo)) with (Z.to_nat (hi - lo) + 1)%nat by lia.
  rewrite seq_app, map_app. cbn [seq map]. do 2 f_equal. lia.
Qed.

Lemma length_flat_map_singletons {A B} (f : A -> list B) (l : list A) :
  (forall a, In a l -> List.length (f a) = 1%nat) ->
  List.length (flat_map f l) = List.length l.
Proof.
  induction l as [|a l IH]; intros H; [reflexivity|].
  simpl. rewrite length_app, (H a) by (left; reflexivity).
  rewrite IH; [reflexivity|]. intros b Hb. apply H. right; exact Hb.
Qed.

Lemma triangle_succ (m : Z) : triangle (m + 1) = triangle m + (m + 1).
Proof.
  unfold triangle.
  replace ((m + 1) * (m + 1 + 1)) with (m * (m + 1) + (m + 1) * 2) by lia.
  apply Z.div_add. lia.
Qed.

Variables (s : str) (p : Z).

Lemma regular_rows :
  _generate_regular_decompositions s p
  = flat_map (regular_row s p) (range 1 (Z.min p (len s) + 1)).
Proof. reflexivity. Qed.

Lemma regular_filter_true (split_point y_length : Z) :
  1 <= split_point <= Z.min p (len s) ->
  1 <= y_length <= split_point ->
  (len (slice s (split_point - y_length) split_point) >? 0)
  && (len (slice_to s (split_point - y_length)
           ++ slice s (split_point - y_length) split_point) <=? p) = true.
Proof.
  intros Hsp Hyl. unfold slice_to.
  rewrite len_app, !len_slice by lia.
  apply andb_true_iff. split; [apply Z.gtb_lt | apply Z.leb_le]; lia.
Qed.

Lemma len_regular_row (split_point : Z) :
  1 <= split_point <= Z.min p (len s) ->
  len (regular_row s p split_point) = split_point.
Proof.
  intros Hsp. unfold regular_row. unfold len at 1.
  rewrite length_flat_map_singletons.
  - fold (len (range 1 (split_point + 1))). rewrite len_range. lia.
  - intros yl Hyl. apply in_range in Hyl. cbv beta zeta.
    rewrite regular_filter_true by lia. reflexivity.
Qed.

Lemma len_regular_rows (k : nat) :
  Z.of_nat k <= Z.min p (len s) ->
  len (flat_map (regular_row s p) (range 1 (Z.of_nat k + 1)))
  = triangle (Z.of_nat k).
Proof.
  induction k as [|k IH]; intros Hk; [reflexivity|].
  rewrite Nat2Z.inj_succ, <- Z.add_1_r.
  rewrite range_snoc, flat_map_app, len_app by lia.
  rewrite IH by lia. cbn [flat_map]. rewrite app_nil_r.
  rewrite len_regular_row by lia. symmetry. apply triangle_succ.
Qed.

End GeneratorsMore.

(** X6: the regular generator is complete: every split x + y + z = s with
    y non-empty and len(x) + len(y) <= p is among its candidates. *)
Theorem regular_generator_complete (s : str) (p : Z) (x y z : str) :
  x ++ y ++ z = s -> y <> [] -> len x + len y <= p ->
  exists d, In d (_generate_regular_decompositions s p)
            /\ Reg.x d = x /\ Reg.y d = y /\ Reg.z d = z.
Proof.
  intros Hs Hy Hp. subst s.
  pose proof (len_nonneg x). pose proof (len_nonneg z).
  assert (0 < len y) by (destruct y; [contradiction | unfold len; simpl; lia]).
  assert (Hn : len (x ++ y ++ z) = len x + len y + len z)
    by (rewrite !len_app; lia).
  exists {| Reg.x := x; Reg.y := y; Reg.z := z;
            Reg.split_info :=
              lit "|xy| = " ++ str_of_int (len (x ++ y))
              ++ lit ", |y| = " ++ str_of_int (len y) |}.
  split; [|repeat split].
  unfold _generate_regular_decompositions.
  apply in_flat_map. exists (len x + len y).
  split; [apply in_range; lia|].
  apply in_flat_map. exists (len y).
  split; [apply in_range; lia|].
  replace (len x + len y - len y) with (len x) by lia.
  rewrite slice_to_app, slice_mid_app, slice_from_app2.
  replace ((len y >? 0) && (len (x ++ y) <=? p)) with true.
  - left; reflexivity.
  - symmetry. apply andb_true_iff. rewrite len_app.
    split; [apply Z.gtb_lt | apply Z.leb_le]; lia.
Qed.

Lemma regular_generator_complete_witness :
  exists d, In d (_generate_regular_decompositions (lit "aabb") 3)
            /\ Reg.x d = lit "a" /\ Reg.y d = lit "ab" /\ Reg.z d = lit "b".
Proof.
  apply regular_generator_complete;
    [reflexivity | discriminate | vm_compute; discriminate].
Defined.

(** X7: the regular generator returns exactly m (m + 1) / 2 candidates,
    where m = min(p, len(s)), and none when that minimum is not positive. *)
Theorem regular_generator_size (s : str) (p : Z) :
  len (_generate_regular_decompositions s p)
  = triangle (Z.max 0 (Z.min p (len s))).
Proof.
  rewrite regular_rows.
  destruct (Z.le_gt_cases 0 (Z.min p (len s))) as [H | H].
  - rewrite Z.max_r by lia.
    pose proof (@len_regular_rows s p (Z.to_nat (Z.min p (len s)))) as E.
    rewrite Z2Nat.id in E by lia. apply E. lia.
  - rewrite Z.max_l, range_empty by lia. reflexivity.
Qed.

Lemma regular_first_and_nonempty (s : str) (p : Z) :
  (_generate_regular_decompositions s p <> [] <-> 1 <= p /\ s <> [])
  /\ forall c t, s = c :: t -> 1 <= p ->
       exists rest,
         _generate_regular_decompositions s p
         = {| Reg.x := []; Reg.y := [c]; Reg.z := t;
              Reg.split_info := lit "|xy| = 1, |y| = 1" |} :: rest.
Proof.
  assert (First : forall c t, s = c :: t -> 1 <= p ->
            exists rest,
              _generate_regular_decompositions s p
              = {| Reg.x := []; Reg.y := [c]; Reg.z := t;
                   Reg.split_info := lit "|xy| = 1, |y| = 1" |} :: rest).
  { intros c t -> Hp. rewrite regular_rows.
    assert (Hn : 1 <= len (c :: t))
      by (pose proof (len_nonneg t); unfold len in *; simpl length; lia).
    rewrite range_cons by lia. cbn [flat_map].
    unfold regular_row at 1.
    change (range 1 (1 + 1)) with [1]. cbn [flat_map].
    change (1 - 1) with 0.
    pose proof (slice_to_app [] (c :: t)) as E1.
    pose proof (slice_mid_app [] [c] t) as E2.
    pose proof (slice_from_app2 [] [c] t) as E3.
    change (len (@nil ascii)) with 0 in E1, E2, E3.
    change (0 + len [c]) with 1 in E2, E3.
    change ([] ++ c :: t) with (c :: t) in E1.
    change ([] ++ [c] ++ t) with (c :: t) in E2, E3.
    rewrite E1, E2, E3.
    change (len [c] >? 0) with true. change (len ([] ++ [c])) with 1.
    destruct (Z.leb_spec 1 p); [|lia].
    cbn [andb app]. eexists. reflexivity. }
  split; [|exact First]. split.
  - intros H. destruct s as [|c t]; [exfalso; apply H|].
    + apply regular_decompositions_none. right; reflexivity.
    + split; [|discriminate].
      destruct (Z.le_gt_cases 1 p) as [Hp|Hp]; [exact Hp|].
      exfalso. apply H. apply regular_decompositions_none. left; lia.
  - intros [Hp Hs]. destruct s as [|c t]; [contradiction|].
    destruct (First c t eq_refl Hp) as [rest ->]. discriminate.
Qed.

(** X8: the regular generator has a candidate exactly when p >= 1 and s is
    not empty, and its first candidate is then x empty, y the first
    character of s, z the rest. *)
Theorem regular_generator_first (s : str) (p : Z) :
  (_generate_regular_decompositions s p <> [] <-> 1 <= p /\ s <> [])
  /\ forall c t, s = c :: t -> 1 <= p ->
       exists rest,
         _generate_regular_decompositions s p
         = {| Reg.x := []; Reg.y := [c]; Reg.z := t;
              Reg.split_info := lit "|xy| = 1, |y| = 1" |} :: rest.
Proof. exact (@regular_first_and_nonempty s p). Qed.

Lemma regular_generator_first_witness :
  exists rest,
    _generate_regular_decompositions (lit "aabb") 3
    = {| Reg.x := []; Reg.y := [chr_a]; Reg.z := lit "abb";
         Reg.split_info := lit "|xy| = 1, |y| = 1" |} :: rest.
Proof.
  apply (proj2 (regular_generator_first (lit "aabb") 3) chr_a (lit "abb"));
    [reflexivity | lia].
Defined.

(** X9: every candidate of the context-free generator has both v and x
    non-empty (not only one of them). *)
Theorem cfl_candidates_pump_both (s : str) (p : Z) (d : Cfl.decomp) :
  In d (_generate_cfl_decompositions s p) ->
  1 <= len (Cfl.v d) /\ 1 <= len (Cfl.x d).
Proof.
  intros H. apply cfl_decompositions_incl, in_cfl_enumeration in H.
  destruct H as [st [en [ve [xs [Hst [Hen [Hve [Hxs H]]]]]]]].
  cbv zeta in H. destruct H as [_ [Hv [_ [Hx _]]]].
  assert (Hlen : len (slice s st en) = en - st) by (apply len_slice; lia).
  rewrite Hv, Hx. unfold slice_to, slice_from.
  rewrite !len_slice by lia. lia.
Qed.

Lemma cfl_candidates_pump_both_witness :
  1 <= len (lit "a") /\ 1 <= len (lit "ab").
Proof.
  apply (@cfl_candidates_pump_both (lit "aabbcc") 5
           {| Cfl.u := empty_str; Cfl.v := lit "a"; Cfl.w := empty_str;
              Cfl.x := lit "ab"; Cfl.y := lit "bcc";
              Cfl.split_info := lit "|vwx| = 3, |vx| = 3" |}).
  vm_compute. right; left; reflexivity.
Defined.

Lemma cfl_enumeration_has (s : str) (p : Z) (u v w x y : str) :
  u ++ v ++ w ++ x ++ y = s -> v <> [] -> x <> [] ->
  len v + len w + len x <= p ->
  exists d, In d (cfl_enumeration s p)
            /\ Cfl.u d = u /\ Cfl.v d = v /\ Cfl.w d = w
            /\ Cfl.x d = x /\ Cfl.y d = y.
Proof.
  intros Hs Hv Hx Hp. subst s.
  pose proof (len_nonneg u). pose proof (len_nonneg w).
  pose proof (len_nonneg y).
  assert (0 < len v) by (destruct v; [contradiction | unfold len; simpl; lia]).
  assert (0 < len x) by (destruct x; [contradiction | unfold len; simpl; lia]).
  set (vwx := v ++ w ++ x).
  assert (Hvwx : len vwx = len v + len w + len x)
    by (unfold vwx; rewrite !len_app; lia).
  assert (Es : u ++ v ++ w ++ x ++ y = u ++ vwx ++ y)
    by (unfold vwx; rewrite <- !app_assoc; reflexivity).
  assert (Hn : len (u ++ vwx ++ y) = len u + len vwx + len y)
    by (rewrite !len_app; lia).
  exists {| Cfl.u := u; Cfl.v := v; Cfl.w := w; Cfl.x := x; Cfl.y := y;
            Cfl.split_info :=
              lit "|vwx| = " ++ str_of_int (len vwx)
              ++ lit ", |vx| = " ++ str_of_int (len (v ++ x)) |}.
  split; [|repeat split].
  rewrite Es. unfold cfl_enumeration.
  apply in_flat_map. exists (len u). split; [apply in_range; lia|].
  apply in_flat_map. exists (len u + len vwx).
  split; [apply in_range; lia|].
  cbv beta zeta. rewrite slice_mid_app, slice_to_app, slice_from_app2.
  apply in_flat_map. exists (len v). split; [apply in_range; lia|].
  apply in_flat_map. exists (len v + len w).
  split; [apply in_range; lia|].
  cbv beta. subst vwx.
  rewrite !slice_to_app, !slice_mid_app, !slice_from_app2.
  replace (len (v ++ x) >? 0) with true.
  - left; reflexivity.
  - symmetry. apply Z.gtb_lt. rewrite len_app. lia.
Qed.

(** X10: the enumeration the context-free generator truncates is complete
    for splits with both v and x non-empty: every u + v + w + x + y = s
    with v, x non-empty and len(v) + len(w) + len(x) <= p is in it. *)
Theorem cfl_enumeration_complete (s : str) (p : Z) (u v w x y : str) :
  u ++ v ++ w ++ x ++ y = s -> v <> [] -> x <> [] ->
  len v + len w + len x <= p ->
  exists d, In d (cfl_enumeration s p)
            /\ Cfl.u d = u /\ Cfl.v d = v /\ Cfl.w d = w
            /\ Cfl.x d = x /\ Cfl.y d = y.
Proof. exact (@cfl_enumeration_has s p u v w x y). Qed.

Lemma cfl_enumeration_complete_witness :
  exists d, In d (cfl_enumeration (lit "aabbcc") 5)
            /\ Cfl.u d = lit "a" /\ Cfl.v d = lit "a" /\ Cfl.w d = lit "bb"
            /\ Cfl.x d = lit "c" /\ Cfl.y d = lit "c".
Proof.
  apply cfl_enumeration_complete;
    [reflexivity | discriminate | discriminate | vm_compute; discriminate].
Defined.

Lemma cfl_generator_nil_iff (s : str) (p : Z) :
  _generate_cfl_decompositions s p = [] <-> p <= 1 \/ len s <= 1.
Proof.
  split.
  - intros H.
    destruct (Z.le_gt_cases p 1) as [Hp|Hp]; [left; exact Hp|].
    destruct (Z.le_gt_cases (len s) 1) as [Hn|Hn]; [right; exact Hn|].
    exfalso. destruct s as [|c1 [|c2 t]];
      try (unfold len in Hn; simpl in Hn; lia).
    destruct (@cfl_enumeration_has (c1 :: c2 :: t) p [] [c1] [] [c2] t)
      as [d [Hin _]]; try reflexivity; try discriminate.
    { change (len [c1] + len (@nil ascii) + len [c2]) with 2. lia. }
    rewrite cfl_decompositions_prefix in H.
    destruct (cfl_enumeration (c1 :: c2 :: t) p) as [|e l]; [contradiction|].
    assert (Hl : 1 <= Z.min 10 (len (e :: l)))
      by (pose proof (len_nonneg l); unfold len in *; simpl length; lia).
    destruct (Z.to_nat (Z.min 10 (len (e :: l)))) eqn:Ek; [lia|].
    discriminate H.
  - intros H.
    destruct (_generate_cfl_decompositions s p) as [|d l] eqn:E;
      [reflexivity|exfalso].
    assert (Hin : In d (_generate_cfl_decompositions s p))
      by (rewrite E; left; reflexivity).
    apply cfl_decompositions_incl, in_cfl_enumeration in Hin.
    destruct Hin as [st [en [ve [xs [Hst [Hen [Hve [Hxs _]]]]]]]]. lia.
Qed.

(** X11: the context-free generator has no candidate exactly when p <= 1 or
    s has at most one character. *)
Theorem cfl_generator_empty_iff (s : str) (p : Z) :
  _generate_cfl_decompositions s p = [] <-> p <= 1 \/ len s <= 1.
Proof. exact (@cfl_generator_nil_iff s p). Qed.

(* ================================================================= *)
(** ** More on the engines: the three shapes a verdict can have *)

Section SearchNonEmpty.

Variables D P : Type.
Variable pump : D -> list (Iter.t P) * bool.
Variables yes no : str.

Local Abbreviation search := (search pump yes no).

(** On a non-empty list, starting from a verdict without iteration records,
    the loop always assigns from some candidate. *)
Lemma search_assigns d rest r :
  Verdict.iterations r = [] ->
  exists e, In e (d :: rest)
    /\ search (d :: rest) r
       = Verdict.assign r e (fst (pump e)) (snd (pump e))
           (if snd (pump e) then yes else no).
Proof.
  intros Hr. destruct (snd (pump d)) eqn:Hd.
  - exists d. split; [left; reflexivity|].
    rewrite Hd. apply search_cons_pass; exact Hd.
  - rewrite search_cons_fail by exact Hd. rewrite Hr. cbn [is_empty].
    destruct (search_origin pump yes no rest
                (Verdict.assign r d (fst (pump d)) false no))
      as [E | [e [Hin E]]].
    + exists d. split; [left; reflexivity|]. rewrite Hd. exact E.
    + exists e. split; [right; exact Hin|]. exact E.
Qed.

End SearchNonEmpty.

Section Shapes.

Variables (pattern s : str) (p : Z).

Lemma apply_regular_shape :
  (len s < p
   /\ apply_regular_pumping_lemma pattern s p
      = Verdict.set_error (Verdict.initial s p)
          (length_error_message (len s) p))
  \/ (p <= len s /\ _generate_regular_decompositions s p = []
      /\ apply_regular_pumping_lemma pattern s p = Verdict.initial s p)
  \/ (p <= len s
      /\ exists d, In d (_generate_regular_decompositions s p)
           /\ apply_regular_pumping_lemma pattern s p
              = Verdict.assign (Verdict.initial s p) d
                  (map (regular_record pattern d) regular_counts)
                  (regular_all_members pattern d)
                  (if regular_all_members pattern d
                   then lit "Possibly Regular" else lit "Not Regular")).
Proof.
  destruct (Z.lt_ge_cases (len s) p) as [H | H].
  - left. split; [exact H | apply apply_regular_short; exact H].
  - right. rewrite apply_regular_long by exact H.
    destruct (_generate_regular_decompositions s p) as [|d rest] eqn:E.
    + left. repeat split; assumption.
    + right. split; [exact H|].
      destruct (search_assigns (regular_pump pattern)
                  (lit "Possibly Regular") (lit "Not Regular") d rest
                  (Verdict.initial s p) eq_refl) as [e [Hin Eq]].
      exists e. split; [exact Hin|].
      rewrite Eq, regular_pump_eq. reflexivity.
Qed.

Lemma apply_cfl_shape :
  (len s < p
   /\ apply_cfl_pumping_lemma pattern s p
      = Verdict.set_error (Verdict.initial s p)
          (length_error_message (len s) p))
  \/ (p <= len s /\ _generate_cfl_decompositions s p = []
      /\ apply_cfl_pumping_lemma pattern s p = Verdict.initial s p)
  \/ (p <= len s
      /\ exists d, In d (_generate_cfl_decompositions s p)
           /\ apply_cfl_pumping_lemma pattern s p
              = Verdict.assign (Verdict.initial s p) d
                  (map (cfl_record pattern d) cfl_counts)
                  (cfl_all_members pattern d)
                  (if cfl_all_members pattern d
                   then lit "Possibly Context-Free"
                   else lit "Not Context-Free")).
Proof.
  destruct (Z.lt_ge_cases (len s) p) as [H | H].
  - left. split; [exact H | apply apply_cfl_short; exact H].
  - right. rewrite apply_cfl_long by exact H.
    destruct (_generate_cfl_decompositions s p) as [|d rest] eqn:E.
    + left. repeat split; assumption.
    + right. split; [exact H|].
      destruct (search_assigns (cfl_pump pattern)
                  (lit "Possibly Context-Free") (lit "Not Context-Free")
                  d rest (Verdict.initial s p) eq_refl) as [e [Hin Eq]].
      exists e. split; [exact Hin|].
      rewrite Eq, cfl_pump_eq. reflexivity.
Qed.

End Shapes.


(** X13: in every verdict the label agrees with the rest: it is one of the
    three labels of its path; it is the "Possibly ..." label exactly when
    lemma_holds is true, "Unknown" exactly when there are no iteration
    records, and the "Not ..." label exactly when there are records and
    lemma_holds is false. *)
Theorem label_agrees_with_verdict (pattern s : str) (p : Z) :
  (let r := apply_regular_pumping_lemma pattern s p in
   (Verdict.language_type r = lit "Possibly Regular"
    <-> Verdict.lemma_holds r = true)
   /\ (Verdict.language_type r = lit "Unknown"
       <-> Verdict.iterations r = [])
   /\ (Verdict.language_type r = lit "Not Regular"
       <-> Verdict.iterations r <> [] /\ Verdict.lemma_holds r = false)
   /\ (Verdict.decomposition r = None <-> Verdict.iterations r = []))
  /\ (let r := apply_cfl_pumping_lemma pattern s p in
      (Verdict.language_type r = lit "Possibly Context-Free"
       <-> Verdict.lemma_holds r = true)
      /\ (Verdict.language_type r = lit "Unknown"
          <-> Verdict.iterations r = [])
      /\ (Verdict.language_type r = lit "Not Context-Free"
          <-> Verdict.iterations r <> [] /\ Verdict.lemma_holds r = false)
      /\ (Verdict.decomposition r = None <-> Verdict.iterations r = [])).
Proof.
  split; cbv zeta.
  - destruct (apply_regular_shape pattern s p)
      as [[H ->] | [[H [_ ->]] | [H [d [_ ->]]]]]; simpl;
      try destruct (regular_all_members pattern d);
      repeat split; intros; repeat split; try discriminate; try congruence;
      match goal with E : _ /\ _ |- _ => destruct E; congruence end.
  - destruct (apply_cfl_shape pattern s p)
      as [[H ->] | [[H [_ ->]] | [H [d [_ ->]]]]]; simpl;
      try destruct (cfl_all_members pattern d);
      repeat split; intros; repeat split; try discriminate; try congruence;
      match goal with E : _ /\ _ |- _ => destruct E; congruence end.
Qed.

Lemma len_str_mul (y : str) (i : Z) : len (str_mul y i) = Z.max 0 i * len y.
Proof.
  unfold str_mul.
  assert (E : forall n, len (concat (repeat y n)) = Z.of_nat n * len y).
  { induction n as [|n IH]; [reflexivity|].
    cbn [repeat concat]. rewrite len_app, IH. lia. }
  rewrite E. lia.
Qed.

Lemma in_regular_counts (i : Z) : In i regular_counts -> 0 <= i.
Proof. unfold regular_counts. simpl. lia. Qed.

Lemma in_cfl_counts (i : Z) : In i cfl_counts -> 0 <= i.
Proof. unfold cfl_counts. simpl. lia. Qed.

Section Reported2.

Variables (pattern s : str) (p : Z).

(** What a verdict with a decomposition looks like. *)
Lemma regular_reported (d : Reg.decomp) :
  Verdict.decomposition (apply_regular_pumping_lemma pattern s p) = Some d ->
  In d (_generate_regular_decompositions s p)
  /\ Verdict.iterations (apply_regular_pumping_lemma pattern s p)
     = map (regular_record pattern d) regular_counts
  /\ Verdict.lemma_holds (apply_regular_pumping_lemma pattern s p)
     = regular_all_members pattern d.
Proof.
  destruct (apply_regular_shape pattern s p)
    as [[H ->] | [[H [_ ->]] | [H [e [Hin ->]]]]]; simpl;
    intros E; try discriminate E.
  inversion E; subst e. repeat split; assumption.
Qed.

Lemma cfl_reported (d : Cfl.decomp) :
  Verdict.decomposition (apply_cfl_pumping_lemma pattern s p) = Some d ->
  In d (_generate_cfl_decompositions s p)
  /\ Verdict.iterations (apply_cfl_pumping_lemma pattern s p)
     = map (cfl_record pattern d) cfl_counts
  /\ Verdict.lemma_holds (apply_cfl_pumping_lemma pattern s p)
     = cfl_all_members pattern d.
Proof.
  destruct (apply_cfl_shape pattern s p)
    as [[H ->] | [[H [_ ->]] | [H [e [Hin ->]]]]]; simpl;
    intros E; try discriminate E.
  inversion E; subst e. repeat split; assumption.
Qed.

End Reported2.

(** X14: when a verdict reports a decomposition, its iteration records are
    the ones of that decomposition: one per tested count, in the order
    0, 1, 2, 3, 5 (regular) or 0, 1, 2, 3 (context-free); each pumped string
    is built from the reported segments with the record's own count, each
    membership flag is the oracle's answer on that pumped string, and the
    parts echo the segments and the count. *)
Theorem records_belong_to_reported_decomposition (pattern s : str) (p : Z) :
  (forall d,
     Verdict.decomposition (apply_regular_pumping_lemma pattern s p) = Some d ->
     map (@Iter.i _)
       (Verdict.iterations (apply_regular_pumping_lemma pattern s p))
     = [0; 1; 2; 3; 5]
     /\ forall it,
          In it (Verdict.iterations
                   (apply_regular_pumping_lemma pattern s p)) ->
          Iter.pumped_string it
          = (Reg.x d ++ str_mul (Reg.y d) (Iter.i it)) ++ Reg.z d
          /\ Iter.in_language it
             = is_string_in_language (Iter.pumped_string it) pattern
          /\ Iter.parts it
             = {| Reg.parts_x := Reg.x d; Reg.parts_y := Reg.y d;
                  Reg.parts_z := Reg.z d;
                  Reg.y_repetitions := Iter.i it |})
  /\ (forall d,
        Verdict.decomposition (apply_cfl_pumping_lemma pattern s p) = Some d ->
        map (@Iter.i _)
          (Verdict.iterations (apply_cfl_pumping_lemma pattern s p))
        = [0; 1; 2; 3]
        /\ forall it,
             In it (Verdict.iterations
                      (apply_cfl_pumping_lemma pattern s p)) ->
             Iter.pumped_string it
             = (((Cfl.u d ++ str_mul (Cfl.v d) (Iter.i it)) ++ Cfl.w d)
                ++ str_mul (Cfl.x d) (Iter.i it)) ++ Cfl.y d
             /\ Iter.in_language it
                = is_string_in_language (Iter.pumped_string it) pattern
             /\ Iter.parts it
                = {| Cfl.parts_u := Cfl.u d; Cfl.parts_v := Cfl.v d;
                     Cfl.parts_w := Cfl.w d; Cfl.parts_x := Cfl.x d;
                     Cfl.parts_y := Cfl.y d;
                     Cfl.v_repetitions := Iter.i it;
                     Cfl.x_repetitions := Iter.i it |}).
Proof.
  split; intros d Hd.
  - destruct (regular_reported pattern s p Hd) as [_ [-> _]].
    split; [reflexivity|]. intros it Hin.
    apply in_map_iff in Hin. destruct Hin as [i [<- _]].
    repeat split.
  - destruct (cfl_reported pattern s p Hd) as [_ [-> _]].
    split; [reflexivity|]. intros it Hin.
    apply in_map_iff in Hin. destruct Hin as [i [<- _]].
    repeat split.
Qed.

Lemma records_belong_to_reported_decomposition_witness :
  map (@Iter.i _)
    (Verdict.iterations
       (apply_regular_pumping_lemma (lit "(ab)*") (lit "abab") 2))
  = [0; 1; 2; 3; 5].
Proof.
  apply (proj1 (proj1 (records_belong_to_reported_decomposition
                         (lit "(ab)*") (lit "abab") 2)
                  {| Reg.x := empty_str; Reg.y := lit "ab"; Reg.z := lit "ab";
                     Reg.split_info := lit "|xy| = 2, |y| = 2" |}
                  eq_refl)).
Defined.

(** X15: in a verdict that reports a decomposition, the pumped string of
    the record with count i has length len(s) + (i - 1) * len(y) on the
    regular path and len(s) + (i - 1) * (len(v) + len(x)) on the
    context-free path. *)
Theorem pumped_length (pattern s : str) (p : Z) :
  (forall d it,
     Verdict.decomposition (apply_regular_pumping_lemma pattern s p) = Some d ->
     In it (Verdict.iterations (apply_regular_pumping_lemma pattern s p)) ->
     len (Iter.pumped_string it)
     = len s + (Iter.i it - 1) * len (Reg.y d))
  /\ (forall d it,
        Verdict.decomposition (apply_cfl_pumping_lemma pattern s p) = Some d ->
        In it (Verdict.iterations (apply_cfl_pumping_lemma pattern s p)) ->
        len (Iter.pumped_string it)
        = len s + (Iter.i it - 1) * (len (Cfl.v d) + len (Cfl.x d))).
Proof.
  split; intros d it Hd Hin.
  - destruct (regular_reported pattern s p Hd) as [Hgen [Hit _]].
    rewrite Hit in Hin. apply in_map_iff in Hin.
    destruct Hin as [i [<- Hi]]. apply in_regular_counts in Hi.
    apply regular_decomposition_sound in Hgen. destruct Hgen as [Hs _].
    cbn [regular_record record Iter.pumped_string Iter.i].
    unfold regular_pumped. rewrite <- Hs, !len_app, len_str_mul.
    rewrite Z.max_r by lia. ring.
  - destruct (cfl_reported pattern s p Hd) as [Hgen [Hit _]].
    rewrite Hit in Hin. apply in_map_iff in Hin.
    destruct Hin as [i [<- Hi]]. apply in_cfl_counts in Hi.
    apply cfl_decompositions_incl, cfl_enumeration_sound in Hgen.
    destruct Hgen as [Hs _].
    cbn [cfl_record record Iter.pumped_string Iter.i].
    unfold cfl_pumped. rewrite <- Hs, !len_app, !len_str_mul.
    rewrite Z.max_r by lia. ring.
Qed.

Lemma pumped_length_witness :
  len (lit "ababab") = len (lit "abab") + (2 - 1) * len (lit "ab").
Proof.
  apply (proj1 (pumped_length (lit "(ab)*") (lit "abab") 2)
           {| Reg.x := empty_str; Reg.y := lit "ab"; Reg.z := lit "ab";
              Reg.split_info := lit "|xy| = 2, |y| = 2" |}
           (regular_record (lit "(ab)*")
              {| Reg.x := empty_str; Reg.y := lit "ab"; Reg.z := lit "ab";
                 Reg.split_info := lit "|xy| = 2, |y| = 2" |} 2)
           eq_refl).
  vm_compute. right; right; left; reflexivity.
Defined.

(** X16: the decomposition a verdict reports is always admissible: its
    segments concatenate to s, the pumped part is non-empty and the bound p
    is respected. *)
Theorem reported_decomposition_admissible (pattern s : str) (p : Z) :
  (forall d,
     Verdict.decomposition (apply_regular_pumping_lemma pattern s p) = Some d ->
     Reg.x d ++ Reg.y d ++ Reg.z d = s
     /\ len (Reg.y d) > 0
     /\ len (Reg.x d) + len (Reg.y d) <= p)
  /\ (forall d,
        Verdict.decomposition (apply_cfl_pumping_lemma pattern s p) = Some d ->
        Cfl.u d ++ Cfl.v d ++ Cfl.w d ++ Cfl.x d ++ Cfl.y d = s
        /\ len (Cfl.v d) + len (Cfl.x d) > 0
        /\ len (Cfl.v d) + len (Cfl.w d) + len (Cfl.x d) <= p).
Proof.
  split; intros d Hd.
  - destruct (regular_reported pattern s p Hd) as [Hgen _].
    apply regular_decomposition_sound; exact Hgen.
  - destruct (cfl_reported pattern s p Hd) as [Hgen _].
    apply cfl_enumeration_sound, cfl_decompositions_incl; exact Hgen.
Qed.

Lemma reported_decomposition_admissible_witness :
  empty_str ++ lit "ab" ++ lit "ab" = lit "abab"
  /\ len (lit "ab") > 0
  /\ len empty_str + len (lit "ab") <= 2.
Proof.
  apply (proj1 (reported_decomposition_admissible
                  (lit "(ab)*") (lit "abab") 2)
           {| Reg.x := empty_str; Reg.y := lit "ab"; Reg.z := lit "ab";
              Reg.split_info := lit "|xy| = 2, |y| = 2" |} eq_refl).
Defined.

(* ================================================================= *)
(** ** When the engines are inconclusive, and what patterns decide *)

Lemma regular_generator_nil_iff (s : str) (p : Z) :
  _generate_regular_decompositions s p = [] <-> p <= 0 \/ s = [].
Proof.
  split; [|apply regular_decompositions_none].
  intros H. destruct (Z.le_gt_cases p 0) as [Hp|Hp]; [left; exact Hp|].
  destruct s as [|c t]; [right; reflexivity|exfalso].
  destruct (proj2 (regular_first_and_nonempty (c :: t) p) c t eq_refl)
    as [rest E]; [lia|].
  rewrite E in H. discriminate H.
Qed.


(** X18: for a pattern identifier the oracle does not support, neither
    engine ever reports that the lemma holds, and every iteration record
    it returns is a non-member. *)
Theorem unsupported_pattern_never_holds (pattern s : str) (p : Z) :
  ~ In pattern supported_patterns ->
  (Verdict.lemma_holds (apply_regular_pumping_lemma pattern s p) = false
   /\ forall it,
        In it (Verdict.iterations
                 (apply_regular_pumping_lemma pattern s p)) ->
        Iter.in_language it = false)
  /\ (Verdict.lemma_holds (apply_cfl_pumping_lemma pattern s p) = false
      /\ forall it,
           In it (Verdict.iterations (apply_cfl_pumping_lemma pattern s p)) ->
           Iter.in_language it = false).
Proof.
  intros Hu. split.
  - destruct (apply_regular_shape pattern s p)
      as [[H ->] | [[H [_ ->]] | [H [d [_ ->]]]]]; simpl;
      try (split; [reflexivity | intros it []]).
    split.
    + unfold regular_all_members, regular_counts. cbn [forallb].
      rewrite member_unsupported by exact Hu. reflexivity.
    + intros it Hin.
      repeat (destruct Hin as [<- | Hin];
              [apply member_unsupported; exact Hu|]).
      contradiction.
  - destruct (apply_cfl_shape pattern s p)
      as [[H ->] | [[H [_ ->]] | [H [d [_ ->]]]]]; simpl;
      try (split; [reflexivity | intros it []]).
    split.
    + unfold cfl_all_members, cfl_counts. cbn [forallb].
      rewrite member_unsupported by exact Hu. reflexivity.
    + intros it Hin.
      repeat (destruct Hin as [<- | Hin];
              [apply member_unsupported; exact Hu|]).
      contradiction.
Qed.

Lemma unsupported_pattern_never_holds_witness :
  Verdict.lemma_holds
    (apply_regular_pumping_lemma (lit "balanced_parentheses") (lit "abab") 2)
  = false
  /\ Verdict.lemma_holds
       (apply_cfl_pumping_lemma (lit "balanced_parentheses") (lit "abab") 2)
     = false.
Proof.
  assert (H : ~ In (lit "balanced_parentheses") supported_patterns).
  { unfold supported_patterns. simpl.
    intros [E | [E | [E | [E | [E | [E | [E | [E | []]]]]]]]];
      discriminate E. }
  destruct (@unsupported_pattern_never_holds
              (lit "balanced_parentheses") (lit "abab") 2 H)
    as [[Hr _] [Hc _]].
  split; [exact Hr | exact Hc].
Defined.

Section PatternsDecide.

Lemma pump_first_char_shape (c : ascii) (t : str) (i j : nat) (k : nat) :
  c :: t = a_i_b_j i j -> exists i' j', repeat c k ++ t = a_i_b_j i' j'.
Proof.
  unfold a_i_b_j. destruct i as [|i].
  - destruct j as [|j]; [discriminate|]. simpl. intros E.
    inversion E; subst. exists 0%nat, (k + j)%nat.
    simpl. symmetry. apply repeat_app.
  - simpl. intros E. inversion E; subst.
    exists (k + i)%nat, j. rewrite repeat_app, <- app_assoc. reflexivity.
Qed.

Lemma count_pos_in (c : ascii) (s : str) : 0 < count c s -> In c s.
Proof.
  unfold count, len. intros H.
  destruct (filter (Ascii.eqb c) s) as [|d l] eqn:E; [simpl in H; lia|].
  assert (Hin : In d (filter (Ascii.eqb c) s)) by (rewrite E; left; reflexivity).
  apply filter_In in Hin. destruct Hin as [Hin Hd].
  apply Ascii.eqb_eq in Hd. subst d. exact Hin.
Qed.

Lemma over_ab_counts (s : str) :
  over_ab s -> count chr_a s + count chr_b s = len s.
Proof.
  unfold over_ab. induction 1 as [|c s Hc _ IH]; [reflexivity|].
  change (c :: s) with ([c] ++ s). rewrite !count_app, len_app, <- IH.
  destruct Hc as [-> | ->]; vm_compute (count _ [_]);
    change (len [chr_a]) with 1; change (len [chr_b]) with 1; lia.
Qed.

Lemma contains_ba_after_b (t : str) :
  over_ab t -> In chr_a t -> contains (lit "ba") (chr_b :: t) = true.
Proof.
  unfold over_ab. induction 1 as [|c t Hc _ IH]; intros Hin; [contradiction|].
  destruct Hc as [-> | ->]; [reflexivity|].
  destruct Hin as [E | Hin]; [discriminate E|].
  change (contains (lit "ba") (chr_b :: chr_b :: t))
    with (startswith (chr_b :: chr_b :: t) (lit "ba")
          || contains (lit "ba") (chr_b :: t)).
  rewrite (IH Hin). apply orb_true_r.
Qed.

Lemma contains_app_l (sub u t : str) :
  contains sub t = true -> contains sub (u ++ t) = true.
Proof.
  intros H. induction u as [|c u IH]; [exact H|].
  change (contains sub ((c :: u) ++ t))
    with (startswith (c :: u ++ t) sub || contains sub (u ++ t)).
  rewrite IH. apply orb_true_r.
Qed.

(** Doubling a block that has both letters creates the factor "ba". *)
Lemma doubled_block_has_ba (x y z : str) :
  over_ab y -> over_ab z -> In chr_a y -> In chr_b y ->
  contains (lit "ba") ((x ++ str_mul y 2) ++ z) = true.
Proof.
  intros Hy Hz Ha Hb.
  change (str_mul y 2) with (y ++ y ++ []). rewrite app_nil_r.
  destruct (in_split _ _ Hb) as [y1 [y2 E]].
  assert (R : (x ++ y ++ y) ++ z = (x ++ y1) ++ chr_b :: (y2 ++ y ++ z)).
  { rewrite E at 1. rewrite <- !app_assoc. reflexivity. }
  rewrite R. apply contains_app_l. apply contains_ba_after_b.
  - unfold over_ab in *. assert (Hy' := Hy). rewrite E in Hy'.
    apply Forall_app in Hy'. destruct Hy' as [_ Hy2].
    apply Forall_cons_iff in Hy2. destruct Hy2 as [_ Hy2].
    apply Forall_app; split; [exact Hy2|].
    apply Forall_app; split; assumption.
  - apply in_or_app; right. apply in_or_app; left. exact Ha.
Qed.

End PatternsDecide.

(** X19: for the patterns "a*b*" and "a^n b^m", whenever the input string
    is a member and 1 <= p <= len(s), the regular engine reports that the
    lemma holds, with the very first candidate: x empty, y the first
    character, z the rest. *)
Theorem astar_bstar_lemma_holds (pattern : str) (c : ascii) (t : str) (p : Z) :
  pattern = lit "a*b*" \/ pattern = lit "a^n b^m" ->
  1 <= p <= len (c :: t) ->
  is_string_in_language (c :: t) pattern = true ->
  Verdict.lemma_holds (apply_regular_pumping_lemma pattern (c :: t) p) = true
  /\ Verdict.language_type (apply_regular_pumping_lemma pattern (c :: t) p)
     = lit "Possibly Regular"
  /\ Verdict.decomposition (apply_regular_pumping_lemma pattern (c :: t) p)
     = Some {| Reg.x := []; Reg.y := [c]; Reg.z := t;
               Reg.split_info := lit "|xy| = 1, |y| = 1" |}.
Proof.
  intros Hpat Hp Hmem.
  rewrite apply_regular_long by lia.
  destruct (proj2 (regular_first_and_nonempty (c :: t) p) c t eq_refl)
    as [rest ->]; [lia|].
  rewrite search_cons_pass; [repeat split|].
  rewrite regular_pump_eq. cbn [snd].
  apply (member_astar_bstar_shape (c :: t) Hpat) in Hmem.
  destruct Hmem as [i [j E]].
  unfold regular_all_members. apply forallb_forall. intros k _.
  apply (member_astar_bstar_shape _ Hpat).
  unfold regular_pumped. cbn [Reg.x Reg.y Reg.z app].
  rewrite str_mul_chr. exact (@pump_first_char_shape c t i j (Z.to_nat k) E).
Qed.

Lemma astar_bstar_lemma_holds_witness :
  Verdict.lemma_holds (apply_regular_pumping_lemma (lit "a*b*") (lit "aab") 1)
  = true.
Proof.
  apply (@astar_bstar_lemma_holds (lit "a*b*") chr_a (lit "ab") 1).
  - left; reflexivity.
  - vm_compute. split; discriminate.
  - vm_compute; reflexivity.
Defined.

(** X20: for the pattern "a^n b^n" and any input string over {a, b}, the
    regular engine never reports that the lemma holds; when
    1 <= p <= len(s) it answers "Not Regular". *)
Theorem anbn_regular_never_holds (s : str) (p : Z) :
  over_ab s ->
  Verdict.lemma_holds (apply_regular_pumping_lemma (lit "a^n b^n") s p)
  = false
  /\ (1 <= p <= len s ->
      Verdict.language_type (apply_regular_pumping_lemma (lit "a^n b^n") s p)
      = lit "Not Regular").
Proof.
  intros Hab.
  assert (Fail : forall d, In d (_generate_regular_decompositions s p) ->
                   regular_all_members (lit "a^n b^n") d = false).
  { intros d Hd. apply regular_decomposition_sound in Hd.
    destruct Hd as [Hs [Hy _]].
    destruct (regular_all_members (lit "a^n b^n") d) eqn:E;
      [exfalso|reflexivity].
    unfold regular_all_members in E. rewrite forallb_forall in E.
    assert (E0 := E 0 ltac:(simpl; auto)).
    assert (E1 := E 1 ltac:(simpl; auto)).
    assert (E2 := E 2 ltac:(simpl; auto)).
    clear E. unfold regular_pumped in *.
    rewrite str_mul_1, <- app_assoc, Hs in E1.
    change (str_mul (Reg.y d) 0) with (@nil ascii) in E0.
    rewrite app_nil_r in E0.
    apply member_anbn_tests in E0, E1, E2.
    destruct E0 as [_ [_ [C0 _]]]. destruct E1 as [_ [_ [C1 _]]].
    destruct E2 as [_ [_ [_ B2]]].
    rewrite <- Hs in C1, Hab.
    repeat rewrite count_app in C0. repeat rewrite count_app in C1.
    unfold over_ab in Hab. apply Forall_app in Hab. destruct Hab as [_ Hyz].
    apply Forall_app in Hyz. destruct Hyz as [Hyab Hzab].
    pose proof (over_ab_counts Hyab) as Hc.
    pose proof (len_nonneg (filter (Ascii.eqb chr_a) (Reg.y d))) as Pa.
    pose proof (len_nonneg (filter (Ascii.eqb chr_b) (Reg.y d))) as Pb.
    fold (count chr_a (Reg.y d)) in Pa. fold (count chr_b (Reg.y d)) in Pb.
    rewrite doubled_block_has_ba in B2;
      [discriminate B2 | exact Hyab | exact Hzab
      | apply count_pos_in; lia | apply count_pos_in; lia]. }
  destruct (apply_regular_shape (lit "a^n b^n") s p)
    as [[H ->] | [[H [Hg ->]] | [H [d [Hin ->]]]]].
  - split; [reflexivity | intros; lia].
  - split; [reflexivity|]. intros Hp.
    apply regular_generator_nil_iff in Hg. destruct Hg as [Hg | ->];
      [lia|]. change (len (@nil ascii)) with 0 in Hp. lia.
  - cbn [Verdict.assign Verdict.lemma_holds Verdict.language_type].
    rewrite (Fail d Hin). split; reflexivity.
Qed.

Lemma anbn_regular_never_holds_witness :
  Verdict.lemma_holds (apply_regular_pumping_lemma (lit "a^n b^n") (lit "aabb") 3)
  = false
  /\ Verdict.language_type
       (apply_regular_pumping_lemma (lit "a^n b^n") (lit "aabb") 3)
     = lit "Not Regular".
Proof.
  assert (H : over_ab (lit "aabb")).
  { unfold over_ab. repeat (apply Forall_cons; [auto|]). apply Forall_nil. }
  destruct (anbn_regular_never_holds 3 H) as [Hh Hl].
  split; [exact Hh | apply Hl; vm_compute; split; discriminate].
Defined.

(* ================================================================= *)
(** ** Test strings, sample strings and the pumping-length estimate *)

Section Samples.

Lemma len_slice_to_le {A} (l : list A) (j : Z) :
  0 <= j -> len (slice_to l j) <= j.
Proof.
  intros H. rewrite slice_to_prefix by exact H.
  unfold len. rewrite length_firstn. lia.
Qed.

Lemma in_slice_to {A} (l : list A) (j : Z) (a : A) :
  0 <= j -> In a (slice_to l j) -> In a l.
Proof.
  intros H. rewrite slice_to_prefix by exact H.
  intros Hin. rewrite <- (firstn_skipn (Z.to_nat (Z.min j (len l))) l).
  apply in_or_app; left; exact Hin.
Qed.

Lemma slice_to_nonempty {A} (l : list A) (j : Z) :
  1 <= j -> l <> [] -> slice_to l j <> [].
Proof.
  intros Hj Hl. rewrite slice_to_prefix by lia.
  destruct l as [|a l]; [contradiction|].
  assert (1 <= Z.min j (len (a :: l)))
    by (pose proof (len_nonneg l); unfold len in *; simpl length; lia).
  destruct (Z.to_nat (Z.min j (len (a :: l)))) eqn:E; [lia|]. discriminate.
Qed.

Lemma is_empty_false {A} (l : list A) : l <> [] -> is_empty l = false.
Proof. destruct l; [contradiction | reflexivity]. Qed.

Lemma range_nonempty (lo hi : Z) : lo < hi -> range lo hi <> [].
Proof. intros H. rewrite range_cons by exact H. discriminate. Qed.

Lemma map_nonempty {A B} (f : A -> B) (l : list A) : l <> [] -> map f l <> [].
Proof. destruct l; [contradiction | discriminate]. Qed.

(** The three families of strings the generators build. *)
Lemma anbn_is_member (n : Z) :
  1 <= n ->
  is_string_in_language (str_mul (lit "a") n ++ str_mul (lit "b") n)
    (lit "a^n b^n") = true.
Proof.
  intros H. change (lit "a") with [chr_a]. change (lit "b") with [chr_b].
  rewrite !str_mul_chr. fold (a_i_b_j (Z.to_nat n) (Z.to_nat n)).
  apply member_anbn_shape; [apply over_ab_shape|].
  exists (Z.to_nat n). split; [lia | reflexivity].
Qed.

Lemma anbm_is_member (pattern : str) (n m : Z) :
  pattern = lit "a*b*" \/ pattern = lit "a^n b^m" ->
  is_string_in_language (str_mul (lit "a") n ++ str_mul (lit "b") m) pattern
  = true.
Proof.
  intros Hp. change (lit "a") with [chr_a]. change (lit "b") with [chr_b].
  rewrite !str_mul_chr. apply (member_astar_bstar_shape _ Hp).
  exists (Z.to_nat n), (Z.to_nat m). reflexivity.
Qed.

Lemma abn_is_member (n : Z) :
  is_string_in_language (str_mul (lit "ab") n) (lit "(ab)*") = true.
Proof. apply member_ab_star_shape. exists (Z.to_nat n). reflexivity. Qed.

Lemma anbncn_is_member (n : Z) :
  1 <= n ->
  is_string_in_language
    (str_mul (lit "a") n ++ str_mul (lit "b") n ++ str_mul (lit "c") n)
    (lit "a^n b^n c^n") = true.
Proof.
  intros H. change (lit "a") with [chr_a]. change (lit "b") with [chr_b].
  change (lit "c") with [chr_c]. rewrite !str_mul_chr.
  apply member_anbncn_shape. exists (Z.to_nat n). split; [lia | reflexivity].
Qed.

End Samples.

(** X21: with the bounds in range, every test string generated for a
    counting pattern is accepted by the oracle for that pattern: for
    "a^n b^n" when 1 <= min_length <= max_length; for "a^n b^m", "a*b*" and
    "(ab)*" when min_length <= max_length; for "a^n b^n c^n" when
    1 <= min_length <= min(4, max_length). *)
Theorem generated_test_strings_are_members
    (pattern : str) (min_length max_length : Z) (s : str) :
  (pattern = lit "a^n b^n" /\ 1 <= min_length <= max_length)
  \/ ((pattern = lit "a^n b^m" \/ pattern = lit "a*b*"
       \/ pattern = lit "(ab)*") /\ min_length <= max_length)
  \/ (pattern = lit "a^n b^n c^n" /\ 1 <= min_length <= Z.min 4 max_length) ->
  In s (generate_test_strings pattern min_length max_length) ->
  is_string_in_language s pattern = true.
Proof.
  intros [[-> H] | [[[-> | [-> | ->]] H] | [-> H]]];
    unfold generate_test_strings; cbn [str_eqb lit list_ascii_of_string];
    cbv zeta.
  - rewrite is_empty_false
      by (apply map_nonempty, range_nonempty; lia).
    intros Hin. apply in_map_iff in Hin. destruct Hin as [n [<- Hn]].
    apply in_range in Hn. apply anbn_is_member; lia.
  - assert (Hne : range min_length (max_length + 1) <> [])
      by (apply range_nonempty; lia).
    destruct (range min_length (max_length + 1)) as [|n0 l] eqn:E;
      [contradiction|].
    cbn [flat_map map app is_empty].
    intros Hin.
    change (In s (flat_map (fun n =>
              map (fun m => str_mul (lit "a") n ++ str_mul (lit "b") m)
                (n0 :: l)) (n0 :: l))) in Hin.
    apply in_flat_map in Hin. destruct Hin as [n [_ Hin]].
    apply in_map_iff in Hin. destruct Hin as [m [<- _]].
    apply anbm_is_member. right; reflexivity.
  - assert (Hne : range min_length (max_length + 1) <> [])
      by (apply range_nonempty; lia).
    destruct (range min_length (max_length + 1)) as [|n0 l] eqn:E;
      [contradiction|].
    cbn [flat_map map app is_empty].
    intros Hin.
    change (In s (flat_map (fun n =>
              map (fun m => str_mul (lit "a") n ++ str_mul (lit "b") m)
                (n0 :: l)) (n0 :: l))) in Hin.
    apply in_flat_map in Hin. destruct Hin as [n [_ Hin]].
    apply in_map_iff in Hin. destruct Hin as [m [<- _]].
    apply anbm_is_member. left; reflexivity.
  - rewrite is_empty_false
      by (apply map_nonempty, range_nonempty; lia).
    intros Hin. apply in_map_iff in Hin. destruct Hin as [n [<- _]].
    apply abn_is_member.
  - rewrite is_empty_false
      by (apply map_nonempty, range_nonempty; lia).
    intros Hin. apply in_map_iff in Hin. destruct Hin as [n [<- Hn]].
    apply in_range in Hn. apply anbncn_is_member; lia.
Qed.

Lemma generated_test_strings_are_members_witness :
  is_string_in_language (lit "aabbcc") (lit "a^n b^n c^n") = true.
Proof.
  apply (@generated_test_strings_are_members (lit "a^n b^n c^n") 1 10).
  - right; right. split; [reflexivity | lia].
  - vm_compute. right; left; reflexivity.
Defined.

(** X22: for every pattern identifier, known or not, and every min_length,
    the test-string generator returns at least one string whenever
    max_length >= 1. *)
Theorem generated_test_strings_nonempty
    (pattern : str) (min_length max_length : Z) :
  1 <= max_length ->
  generate_test_strings pattern min_length max_length <> [].
Proof.
  intros H. unfold generate_test_strings.
  match goal with
  | |- (if is_empty ?e then _ else _) <> [] => generalize e
  end.
  intros strings. destruct strings as [|s0 l]; cbn [is_empty]; [|discriminate].
  apply slice_to_nonempty; [exact H | discriminate].
Qed.

Lemma generated_test_strings_nonempty_witness :
  generate_test_strings (lit "a^n b^n") 7 3 <> [].
Proof. apply generated_test_strings_nonempty. lia. Defined.

(** X23: for every pattern identifier and every count >= 0, the sample
    generator returns at most count strings. *)
Theorem sample_strings_at_most_count (pattern : str) (count : Z) :
  0 <= count -> len (generate_sample_strings pattern count) <= count.
Proof.
  intros H. unfold generate_sample_strings.
  match goal with
  | |- len (if is_empty (slice_to ?e _) then _ else _) <= _ => generalize e
  end.
  intros samples. destruct (is_empty (slice_to samples count));
    apply len_slice_to_le; exact H.
Qed.

Lemma sample_strings_at_most_count_witness :
  len (generate_sample_strings (lit "a^n b^m") 3) <= 3.
Proof. apply sample_strings_at_most_count. lia. Defined.

(** X24: for count >= 1 and each of the patterns "a^n b^n", "a^n b^m",
    "a*b*", "(ab)*", "a^n b^n c^n" and the even-number-of-a pattern, every
    sample string returned is accepted by the oracle for that pattern. *)
Theorem sample_strings_are_members (pattern : str) (count : Z) (s : str) :
  1 <= count ->
  In pattern [lit "a^n b^n"; lit "a^n b^m"; lit "a*b*"; lit "(ab)*";
              lit "a^n b^n c^n"; lit "(b*ab*ab*)*"] ->
  In s (generate_sample_strings pattern count) ->
  is_string_in_language s pattern = true.
Proof.
  intros Hc Hp.
  assert (Keep : forall l : list str, l <> [] ->
            In s (if is_empty (slice_to l count)
                  then slice_to [lit "a"; lit "aa"; lit "b"; lit "bb";
                                 lit "ab"; lit "aab"; lit "abb"] count
                  else slice_to l count) -> In s l).
  { intros l Hl. rewrite is_empty_false by (apply slice_to_nonempty; assumption).
    apply in_slice_to. lia. }
  destruct Hp as [<- | [<- | [<- | [<- | [<- | [<- | []]]]]]];
    unfold generate_sample_strings; cbn [str_eqb lit list_ascii_of_string];
    cbv zeta; intros Hin; apply Keep in Hin.
  - apply in_map_iff in Hin. destruct Hin as [n [<- Hn]].
    apply in_range in Hn. apply anbn_is_member; lia.
  - apply map_nonempty, range_nonempty; lia.
  - apply in_flat_map in Hin. destruct Hin as [i [_ Hin]].
    apply in_app_or in Hin. destruct Hin as [[<- | []] | Hin].
    + apply anbm_is_member. right; reflexivity.
    + destruct (i <? count); [|contradiction].
      destruct Hin as [<- | []]. apply anbm_is_member. right; reflexivity.
  - rewrite range_cons by lia. discriminate.
  - clear Keep. revert s Hin. apply Forall_forall. repeat constructor.
  - discriminate.
  - apply in_map_iff in Hin. destruct Hin as [n [<- _]].
    apply abn_is_member.
  - apply map_nonempty, range_nonempty; lia.
  - apply in_map_iff in Hin. destruct Hin as [n [<- Hn]].
    apply in_range in Hn. apply anbncn_is_member; lia.
  - apply map_nonempty, range_nonempty; lia.
  - clear Keep. revert s Hin. apply Forall_forall. repeat constructor.
  - discriminate.
Qed.

Lemma sample_strings_are_members_witness :
  is_string_in_language (lit "abb") (lit "a^n b^m") = true.
Proof.
  apply (@sample_strings_are_members (lit "a^n b^m") 5).
  - lia.
  - right; left; reflexivity.
  - vm_compute. right; left; reflexivity.
Defined.

(* ================================================================= *)
(** ** analyze_language_properties *)

Section AnalysisFacts.

Lemma min_of_spec (first : Z) (rest : list Z) :
  In (min_of first rest) (first :: rest)
  /\ forall x, In x (first :: rest) -> min_of first rest <= x.
Proof.
  unfold min_of. revert first. induction rest as [|y rest IH]; intros first.
  - simpl. split; [left; reflexivity | intros x [<- | []]; lia].
  - cbn [fold_left]. destruct (IH (Z.min first y)) as [Hin Hle]. split.
    + destruct Hin as [E | Hin]; [|right; right; exact Hin].
      rewrite <- E. destruct (Z.min_spec first y) as [[_ ->] | [_ ->]];
        [left | right; left]; reflexivity.
    + intros x [<- | [<- | Hx]].
      * specialize (Hle (Z.min first y) (or_introl eq_refl)). lia.
      * specialize (Hle (Z.min first y) (or_introl eq_refl)). lia.
      * apply Hle. right; exact Hx.
Qed.

Lemma max_of_spec (first : Z) (rest : list Z) :
  In (max_of first rest) (first :: rest)
  /\ forall x, In x (first :: rest) -> x <= max_of first rest.
Proof.
  unfold max_of. revert first. induction rest as [|y rest IH]; intros first.
  - simpl. split; [left; reflexivity | intros x [<- | []]; lia].
  - cbn [fold_left]. destruct (IH (Z.max first y)) as [Hin Hle]. split.
    + destruct Hin as [E | Hin]; [|right; right; exact Hin].
      rewrite <- E. destruct (Z.max_spec first y) as [[_ ->] | [_ ->]];
        [right; left | left]; reflexivity.
    + intros x [<- | [<- | Hx]].
      * specialize (Hle (Z.max first y) (or_introl eq_refl)). lia.
      * specialize (Hle (Z.max first y) (or_introl eq_refl)). lia.
      * apply Hle. right; exact Hx.
Qed.

Variables (pattern : str) (test_strings : list str).

(** The test strings the oracle accepts, in order. *)
Local Abbreviation members :=
  (filter (fun t => is_string_in_language t pattern) test_strings).

Lemma analysis_props_eq :
  Analysis.props (analyze_language_properties pattern test_strings)
  = match members with
    | [] => None
    | t0 :: rest =>
        Some {| Analysis.can_be_empty :=
                  existsb (fun t => str_eqb t empty_str) (t0 :: rest);
                Analysis.min_length := min_of (len t0) (map (@len _) rest);
                Analysis.max_length_tested :=
                  max_of (len t0) (map (@len _) rest);
                Analysis.sample_count := len (t0 :: rest) |}
    end.
Proof.
  unfold analyze_language_properties. cbn [Analysis.props].
  assert (E : forall l : list str,
            filter Analysis.in_language
              (map (fun t => {| Analysis.string := t;
                                Analysis.in_language :=
                                  is_string_in_language t pattern;
                                Analysis.length := len t |}) l)
            = map (fun t => {| Analysis.string := t;
                               Analysis.in_language :=
                                 is_string_in_language t pattern;
                               Analysis.length := len t |})
                (filter (fun t => is_string_in_language t pattern) l)).
  { induction l as [|t l IH]; [reflexivity|]. simpl.
    destruct (is_string_in_language t pattern) eqn:Em; simpl;
      rewrite IH, ?Em; reflexivity. }
  rewrite E. destruct members as [|t0 rest]; [reflexivity|].
  cbn [map Analysis.length Analysis.string existsb]. f_equal. f_equal.
  - f_equal. induction rest as [|t rest IH]; [reflexivity|].
    simpl. rewrite IH. reflexivity.
  - rewrite map_map. reflexivity.
  - rewrite map_map. reflexivity.
  - unfold len. simpl. rewrite length_map. reflexivity.
Qed.

Lemma in_members (t : str) :
  In t members <-> In t test_strings /\ is_string_in_language t pattern = true.
Proof.
  exact (filter_In (fun u => is_string_in_language u pattern) t test_strings).
Qed.

End AnalysisFacts.

(** X25: the analysis has no "properties" exactly when the oracle rejects
    every test string. *)
Theorem analysis_properties_absent_iff (pattern : str) (test_strings : list str) :
  Analysis.props (analyze_language_properties pattern test_strings) = None
  <-> forall t, In t test_strings -> is_string_in_language t pattern = false.
Proof.
  rewrite analysis_props_eq. split.
  - intros H t Ht.
    destruct (is_string_in_language t pattern) eqn:E; [exfalso|reflexivity].
    assert (Hin : In t (filter (fun t => is_string_in_language t pattern)
                          test_strings))
      by (apply in_members; split; assumption).
    destruct (filter _ test_strings); [contradiction | discriminate H].
  - intros H.
    destruct (filter (fun t => is_string_in_language t pattern) test_strings)
      as [|t0 rest] eqn:E; [reflexivity|exfalso].
    assert (Hin : In t0 (filter (fun t => is_string_in_language t pattern)
                           test_strings))
      by (rewrite E; left; reflexivity).
    apply in_members in Hin. destruct Hin as [Hin Hm].
    rewrite (H t0 Hin) in Hm. discriminate Hm.
Qed.

(** X26: when the analysis has "properties", min_length and
    max_length_tested bound the length of every accepted test string, and
    each is the length of some accepted test string. *)
Theorem analysis_length_bounds
    (pattern : str) (test_strings : list str) (pr : Analysis.properties) :
  Analysis.props (analyze_language_properties pattern test_strings) = Some pr ->
  (forall t, In t test_strings -> is_string_in_language t pattern = true ->
     Analysis.min_length pr <= len t <= Analysis.max_length_tested pr)
  /\ (exists t, In t test_strings
                /\ is_string_in_language t pattern = true
                /\ len t = Analysis.min_length pr)
  /\ (exists t, In t test_strings
                /\ is_string_in_language t pattern = true
                /\ len t = Analysis.max_length_tested pr).
Proof.
  rewrite analysis_props_eq.
  destruct (filter (fun t => is_string_in_language t pattern) test_strings)
    as [|t0 rest] eqn:E; [discriminate|].
  intros H. inversion H; subst pr; clear H.
  cbn [Analysis.min_length Analysis.max_length_tested].
  destruct (min_of_spec (len t0) (map (@len _) rest)) as [Imin Lmin].
  destruct (max_of_spec (len t0) (map (@len _) rest)) as [Imax Lmax].
  assert (Back : forall n, In n (len t0 :: map (@len _) rest) ->
            exists t, In t test_strings
                      /\ is_string_in_language t pattern = true /\ len t = n).
  { intros n Hn. change (len t0 :: map (@len _) rest)
      with (map (@len ascii) (t0 :: rest)) in Hn.
    apply in_map_iff in Hn. destruct Hn as [t [<- Ht]].
    rewrite <- E in Ht. apply in_members in Ht.
    exists t. tauto. }
  split; [|split; apply Back; assumption].
  intros t Ht Hm.
  assert (Hin : In (len t) (len t0 :: map (@len _) rest)).
  { change (len t0 :: map (@len _) rest)
      with (map (@len ascii) (t0 :: rest)).
    apply in_map. rewrite <- E. apply in_members. split; assumption. }
  split; [apply Lmin | apply Lmax]; exact Hin.
Qed.

Lemma analysis_length_bounds_witness :
  exists t, In t [lit "ab"; lit "a"; empty_str; lit "abab"]
            /\ is_string_in_language t (lit "(ab)*") = true
            /\ len t = 4.
Proof.
  apply (@analysis_length_bounds (lit "(ab)*")
           [lit "ab"; lit "a"; empty_str; lit "abab"]
           {| Analysis.can_be_empty := true; Analysis.min_length := 0;
              Analysis.max_length_tested := 4; Analysis.sample_count := 3 |}
           eq_refl).
Defined.

(** X27: when the analysis has "properties", sample_count is the number of
    accepted test strings, it lies between 1 and the number of test
    strings, and can_be_empty is true exactly when the empty string is
    among the test strings and the oracle accepts it. *)
Theorem analysis_counts
    (pattern : str) (test_strings : list str) (pr : Analysis.properties) :
  Analysis.props (analyze_language_properties pattern test_strings) = Some pr ->
  Analysis.sample_count pr
  = len (filter (fun t => is_string_in_language t pattern) test_strings)
  /\ 1 <= Analysis.sample_count pr <= len test_strings
  /\ (Analysis.can_be_empty pr = true <->
      In empty_str test_strings
      /\ is_string_in_language empty_str pattern = true).
Proof.
  rewrite analysis_props_eq.
  pose proof (filter_length_le (fun t => is_string_in_language t pattern)
                test_strings) as Hle.
  assert (Hmem := in_members pattern test_strings empty_str).
  destruct (filter (fun t => is_string_in_language t pattern) test_strings)
    as [|t0 rest] eqn:E; [discriminate|].
  intros H. inversion H; subst pr; clear H.
  cbn [Analysis.sample_count Analysis.can_be_empty].
  split; [reflexivity|]. split.
  - unfold len. simpl length in *. lia.
  - change (existsb (fun t => str_eqb t empty_str) (t0 :: rest) = true
            <-> In empty_str test_strings
                /\ is_string_in_language empty_str pattern = true).
    try rewrite E in Hmem. rewrite <- Hmem, existsb_exists. split.
    + intros [t [Ht Heq]]. apply str_eqb_eq in Heq. subst t. exact Ht.
    + intros Ht. exists empty_str. split; [exact Ht | reflexivity].
Qed.

Lemma analysis_counts_witness :
  3 = len (filter (fun t => is_string_in_language t (lit "(ab)*"))
             [lit "ab"; lit "a"; empty_str; lit "abab"]).
Proof.
  apply (proj1 (@analysis_counts (lit "(ab)*")
                  [lit "ab"; lit "a"; empty_str; lit "abab"]
                  {| Analysis.can_be_empty := true; Analysis.min_length := 0;
                     Analysis.max_length_tested := 4;
                     Analysis.sample_count := 3 |}
                  eq_refl)).
Defined.

(** X28: the pumping-length estimate is always between 1 and 5, so on any
    string of at least five characters the regular engine run at the
    estimate neither reports an error nor answers "Unknown". *)
Theorem estimate_is_usable (language_type pattern s : str) :
  5 <= len s ->
  1 <= calculate_pumping_length language_type pattern <= 5
  /\ Verdict.error
       (apply_regular_pumping_lemma pattern s
          (calculate_pumping_length language_type pattern)) = None
  /\ Verdict.language_type
       (apply_regular_pumping_lemma pattern s
          (calculate_pumping_length language_type pattern))
     <> lit "Unknown".
Proof.
  intros Hs.
  assert (Hp : 1 <= calculate_pumping_length language_type pattern <= 5).
  { unfold calculate_pumping_length.
    repeat match goal with
    | |- context [if ?b then _ else _] => destruct b
    end; lia. }
  split; [exact Hp|].
  set (p := calculate_pumping_length language_type pattern) in *.
  destruct (apply_regular_shape pattern s p)
    as [[H _] | [[H [Hg _]] | [H [d [Hin ->]]]]].
  - lia.
  - apply regular_generator_nil_iff in Hg. destruct Hg as [Hg | ->];
      [lia|]. change (len (@nil ascii)) with 0 in Hs. lia.
  - cbn [Verdict.assign Verdict.error Verdict.language_type Verdict.initial].
    split; [reflexivity|].
    destruct (regular_all_members pattern d); discriminate.
Qed.

Lemma estimate_is_usable_witness :
  Verdict.language_type
    (apply_regular_pumping_lemma (lit "a^n b^n") (lit "aaabbb")
       (calculate_pumping_length (lit "regular") (lit "a^n b^n")))
  <> lit "Unknown".
Proof.
  apply (@estimate_is_usable (lit "regular") (lit "a^n b^n") (lit "aaabbb")).
  vm_compute. discriminate.
Defined.
